(** * The audio translation route: [src/app/api/process-audio/route.ts]

    A shallow embedding of the request handler [POST], of the lazily built
    model pipelines it shares between requests ([getASR], [getTranslator],
    [getTTS]) and of the helpers they use, followed by the properties of the
    handler that the specification states.

    JavaScript values are modelled by the shapes the source casts them to;
    module-level variables, the scratch directories on disk, the console and
    a log of the calls made to the outside world are the fields of one
    explicit state, [World].  Every operation the handler awaits is taken to
    settle: it is fulfilled with a value or rejected with an error. *)

From stdpp Require Import gmap strings list.

Open Scope string_scope.

(** ** Language tables *)

(** [const TTS_MODEL: Record<SupportedLanguage, string>] *)
Definition TTS_MODEL : gmap string string :=
  list_to_map
    [ ("en", "Xenova/mms-tts-en");
      ("es", "Xenova/mms-tts-es");
      ("fr", "Xenova/mms-tts-fr");
      ("de", "Xenova/mms-tts-de");
      ("it", "Xenova/mms-tts-it");
      ("pt", "Xenova/mms-tts-pt") ].

(** [const TRANSLATION_LANG: Record<SupportedLanguage, string>] *)
Definition TRANSLATION_LANG : gmap string string :=
  list_to_map
    [ ("en", "en"); ("es", "es"); ("fr", "fr");
      ("de", "de"); ("it", "it"); ("pt", "pt") ].

(** The members of the union type [SupportedLanguage]. *)
Definition SupportedLanguage : list string :=
  ["en"; "es"; "fr"; "de"; "it"; "pt"].

(** [Object.prototype.hasOwnProperty.call(TTS_MODEL, input)] *)
Definition isSupportedLanguage (input : string) : bool :=
  match TTS_MODEL !! input with
  | Some _ => true
  | None => false
  end.

(** [table[key]] for a key of type [SupportedLanguage]; a key outside the
    table reads [undefined], which the source never passes on. *)
Definition at_language (table : gmap string string) (key : string) : string :=
  default "undefined" (table !! key).

(** ** Errors, settled promises and the state of the process *)

(** A thrown value: [new Error(message)] or the reason of a rejection. *)
Record JsError := mkError { message : string }.

(** The way an awaited promise settles. *)
Inductive Settled (A : Type) : Type :=
| Fulfilled (a : A)
| Rejected (e : JsError).
Arguments Fulfilled {A} a.
Arguments Rejected {A} e.

(** A promise returned by [pipeline(task, model)] is named by the rank of the
    call that created it. *)
Definition PromiseId := nat.

(** The calls the handler makes to the file system, to ffmpeg ([@/lib/audio]),
    to the model pipelines and to the WAV encoder. *)
Inductive Op : Type :=
| OpMkdtemp (pfx : string)
| OpArrayBuffer (fileName : string)
| OpWriteFile (file : string)
| OpConvertToWav (input output : string)
| OpCreateInstrumental (input output : string)
| OpAsr (input : string)
| OpTranslate (text src_lang tgt_lang : string)
| OpTts (text : string)
| OpEncode
| OpNormalizeVoice (input output : string)
| OpMixTracks (instrumental voice output : string)
| OpReadFile (file : string)
| OpRm (dir : string).

(** What an observer sees of a run, oldest first: a call being made, or an
    exception being raised. *)
Inductive Event : Type :=
| Call (op : Op)
| Raised (e : JsError).

Record World := mkWorld {
  (** [let asrPipelinePromise: Promise<...> | null = null] *)
  asrPipelinePromise : option PromiseId;
  (** [let translationPipelinePromise: Promise<...> | null = null] *)
  translationPipelinePromise : option PromiseId;
  (** [const ttsPipelines = new Map<SupportedLanguage, Promise<...>>()] *)
  ttsPipelines : gmap string PromiseId;
  (** every call [pipeline(task, model)] made so far, oldest first *)
  constructed : list (string * string);
  (** the scratch directories that exist *)
  dirs : gset string;
  (** the calls and exceptions so far *)
  trace : list Event;
  (** what [console.error] printed so far *)
  console : list JsError
}.

(** The state when the module has just been loaded. *)
Definition initial_world : World :=
  mkWorld None None ∅ [] ∅ [] [].

Definition set_asrPipelinePromise (v : option PromiseId) (w : World) : World :=
  mkWorld v (translationPipelinePromise w) (ttsPipelines w) (constructed w)
          (dirs w) (trace w) (console w).

Definition set_translationPipelinePromise (v : option PromiseId) (w : World) : World :=
  mkWorld (asrPipelinePromise w) v (ttsPipelines w) (constructed w)
          (dirs w) (trace w) (console w).

Definition set_ttsPipelines (v : gmap string PromiseId) (w : World) : World :=
  mkWorld (asrPipelinePromise w) (translationPipelinePromise w) v (constructed w)
          (dirs w) (trace w) (console w).

Definition set_constructed (v : list (string * string)) (w : World) : World :=
  mkWorld (asrPipelinePromise w) (translationPipelinePromise w) (ttsPipelines w) v
          (dirs w) (trace w) (console w).

Definition set_dirs (v : gset string) (w : World) : World :=
  mkWorld (asrPipelinePromise w) (translationPipelinePromise w) (ttsPipelines w)
          (constructed w) v (trace w) (console w).

Definition set_trace (v : list Event) (w : World) : World :=
  mkWorld (asrPipelinePromise w) (translationPipelinePromise w) (ttsPipelines w)
          (constructed w) (dirs w) v (console w).

Definition set_console (v : list JsError) (w : World) : World :=
  mkWorld (asrPipelinePromise w) (translationPipelinePromise w) (ttsPipelines w)
          (constructed w) (dirs w) (trace w) v.

(** ** The pipeline singletons *)

(** [pipeline(task, model)] of [@xenova/transformers]: starts the construction
    and returns its promise at once. *)
Definition pipeline (task model : string) (w : World) : PromiseId * World :=
  (length (constructed w), set_constructed (constructed w ++ [(task, model)]) w).

Definition ASR_PIPELINE : string * string :=
  ("automatic-speech-recognition", "Xenova/whisper-small").
Definition TRANSLATION_PIPELINE : string * string :=
  ("translation", "Xenova/m2m100_418M").
Definition TTS_PIPELINE (language : string) : string * string :=
  ("text-to-speech", at_language TTS_MODEL language).

Definition getASR (w : World) : PromiseId * World :=
  match asrPipelinePromise w with
  | Some p => (p, w)
  | None =>
      let '(p, w1) := pipeline (fst ASR_PIPELINE) (snd ASR_PIPELINE) w in
      (p, set_asrPipelinePromise (Some p) w1)
  end.

Definition getTranslator (w : World) : PromiseId * World :=
  match translationPipelinePromise w with
  | Some p => (p, w)
  | None =>
      let '(p, w1) := pipeline (fst TRANSLATION_PIPELINE) (snd TRANSLATION_PIPELINE) w in
      (p, set_translationPipelinePromise (Some p) w1)
  end.

Definition getTTS (language : string) (w : World) : PromiseId * World :=
  match ttsPipelines w !! language with
  | Some p => (p, w)
  | None =>
      let '(p, w1) := pipeline "text-to-speech" (at_language TTS_MODEL language) w in
      (p, set_ttsPipelines (<[language := p]> (ttsPipelines w1)) w1)
  end.

(** A call of one of the three getters, as any request may make it. *)
Inductive Getter : Type :=
| GetASR
| GetTranslator
| GetTTS (language : string).

#[global] Instance Getter_eq_dec : EqDecision Getter.
Proof. solve_decision. Defined.

(** The model a getter stands for. *)
Definition model_of (g : Getter) : string * string :=
  match g with
  | GetASR => ASR_PIPELINE
  | GetTranslator => TRANSLATION_PIPELINE
  | GetTTS language => TTS_PIPELINE language
  end.

(** The argument of [getTTS] has type [SupportedLanguage]. *)
Definition well_typed (g : Getter) : bool :=
  match g with
  | GetTTS language => isSupportedLanguage language
  | _ => true
  end.

Definition run_getter (g : Getter) (w : World) : PromiseId * World :=
  match g with
  | GetASR => getASR w
  | GetTranslator => getTranslator w
  | GetTTS language => getTTS language w
  end.

(** The getters run to completion without awaiting, so whatever the number
    of requests in flight, the process sees their calls one after another. *)
Fixpoint run_getters (gs : list Getter) (w : World) : list PromiseId * World :=
  match gs with
  | [] => ([], w)
  | g :: gs' =>
      let '(p, w1) := run_getter g w in
      let '(ps, w2) := run_getters gs' w1 in
      (p :: ps, w2)
  end.

(** The promise a getter has cached, if any. *)
Definition cached (g : Getter) (w : World) : option PromiseId :=
  match g with
  | GetASR => asrPipelinePromise w
  | GetTranslator => translationPipelinePromise w
  | GetTTS language => ttsPipelines w !! language
  end.

(** How many times [pipeline] was called for a model. *)
Definition constructions (m : string * string) (w : World) : nat :=
  length (filter (λ c, c = m) (constructed w)).

(** ** Values exchanged with the request and the collaborators *)

Definition Buffer := list Byte.byte.

(** A [Float32Array], each element by its 32-bit pattern. *)
Definition Float32Array := list N.

(** A [File] of the form data: its name and what [arrayBuffer()] settles to. *)
Record File := mkFile {
  name : string;
  arrayBuffer : Settled Buffer
}.

Inductive FormDataEntryValue : Type :=
| EntryString (s : string)
| EntryFile (f : File).

(** [FormData] as the ordered list of its entries. *)
Definition FormData := list (string * FormDataEntryValue).

(** [formData.get(key)]: the first value under [key], or [null]. *)
Fixpoint FormData_get (key : string) (fd : FormData) : option FormDataEntryValue :=
  match fd with
  | [] => None
  | (k, v) :: fd' => if String.eqb k key then Some v else FormData_get key fd'
  end.

(** [lhs ?? rhs] on a value that is [null] when absent. *)
Definition nullish {A : Type} (lhs : option A) (rhs : A) : A :=
  match lhs with
  | Some v => v
  | None => rhs
  end.

Record NextRequest := mkRequest {
  formData : Settled FormData
}.

(** The result of the speech recogniser, as the source casts it:
    [{ text?: string; language?: string } | string]. *)
Inductive AsrResult : Type :=
| AsrString (s : string)
| AsrObject (text language : option string).

(** [string | { translation_text?: string }] *)
Inductive TranslationItem : Type :=
| ItemString (s : string)
| ItemObject (translation_text : option string).

(** [string | { translation_text?: string } | Array<...>] *)
Inductive TranslationResult : Type :=
| TranslationOne (item : TranslationItem)
| TranslationArray (items : list TranslationItem).

(** [audio: Float32Array | Float32Array[]] *)
Inductive TtsAudio : Type :=
| AudioChannel (channel : Float32Array)
| AudioChannels (channels : list Float32Array).

Record TtsResult := mkTtsResult {
  audio : TtsAudio;
  sampling_rate : Z
}.

Inductive Body : Type :=
| BodyText (s : string)
| BodyBytes (b : Buffer).

Record NextResponse := mkResponse {
  body : Body;
  status : Z;
  headers : list (string * string)
}.

(** What the outside world answers during one request: Node's [os], [path]
    and [fs/promises], the audio helpers of [@/lib/audio], the settled model
    pipelines and [wav-encoder]. *)
Record Env := mkEnv {
  tmpdir : string;
  path_join : string → string → string;
  path_extname : string → string;
  mkdtemp : string → Settled string;
  writeFile : string → Buffer → Settled unit;
  readFile : string → Settled Buffer;
  rm : string → Settled unit;
  convertToWav : string → string → Settled unit;
  createInstrumental : string → string → Settled unit;
  normalizeVoice : string → string → Settled unit;
  mixTracks : string → string → string → Settled unit;
  (** how the promise of a pipeline construction settles *)
  settles : PromiseId → Settled unit;
  asr : string → Settled AsrResult;
  translator : string → string → string → Settled TranslationResult;
  tts : string → Settled TtsResult;
  WavEncoder_encode : Z → list Float32Array → Settled Buffer
}.

(** ** Computations that read and change the state and may throw *)

Inductive Completion (A : Type) : Type :=
| Normal (a : A)
| Throw (e : JsError).
Arguments Normal {A} a.
Arguments Throw {A} e.

Definition Js (A : Type) : Type := World → Completion A * World.

Definition ret {A : Type} (a : A) : Js A := λ w, (Normal a, w).

Definition bind {A B : Type} (m : Js A) (k : A → Js B) : Js B :=
  λ w, match m w with
       | (Normal a, w1) => k a w1
       | (Throw e, w1) => (Throw e, w1)
       end.

Notation "'let*' x ':=' m 'in' k" := (bind m (λ x, k))
  (at level 10, x name, m at level 100, k at level 200).

Definition emit (ev : Event) (w : World) : World :=
  set_trace (trace w ++ [ev]) w.

(** [throw e] *)
Definition throw {A : Type} (e : JsError) : Js A :=
  λ w, (Throw e, emit (Raised e) w).

(** A state change that cannot fail. *)
Definition lift {A : Type} (f : World → A * World) : Js A :=
  λ w, let '(a, w1) := f w in (Normal a, w1).

(** [await promise]: the value, or the rejection raised as an exception. *)
Definition await {A : Type} (r : Settled A) : Js A :=
  match r with
  | Fulfilled a => ret a
  | Rejected e => throw e
  end.

(** [await op(...)] for a call to the outside world. *)
Definition call {A : Type} (op : Op) (r : Settled A) : Js A :=
  λ w, await r (emit (Call op) w).

(** [try { body } finally { cleanup }]: the cleanup runs whatever the body
    did; when the cleanup throws, its exception replaces the completion of
    the body, a returned value included. *)
Definition try_finally {A : Type} (body : Js A) (cleanup : Js unit) : Js A :=
  λ w, let '(c, w1) := body w in
       match cleanup w1 with
       | (Normal _, w2) => (c, w2)
       | (Throw e, w2) => (Throw e, w2)
       end.

(** [try { body } catch (error) { handler }] *)
Definition try_catch {A : Type} (body : Js A) (handler : JsError → Js A) : Js A :=
  λ w, match body w with
       | (Normal a, w1) => (Normal a, w1)
       | (Throw e, w1) => handler e w1
       end.

(** [console.error(error)] *)
Definition console_error (e : JsError) : Js unit :=
  λ w, (Normal tt, set_console (console w ++ [e]) w).

(** [await mkdtemp(prefix)]: on success the directory exists. *)
Definition do_mkdtemp (env : Env) (pfx : string) : Js string :=
  let* dir := call (OpMkdtemp pfx) (mkdtemp env pfx) in
  lift (λ w, (dir, set_dirs ({[dir]} ∪ dirs w) w)).

(** [await rm(dir, { recursive: true, force: true })]: on success the
    directory is gone; a rejected removal leaves it in place. *)
Definition do_rm (env : Env) (dir : string) : Js unit :=
  let* _ := call (OpRm dir) (rm env dir) in
  lift (λ w, (tt, set_dirs (dirs w ∖ {[dir]}) w)).

(** ** The handler *)

(** A string in a boolean position: only the empty string is falsy. *)
Definition truthy (s : string) : bool := negb (String.eqb s "").

(** [lhs || rhs] on strings. *)
Definition or_else (lhs rhs : string) : string :=
  if truthy lhs then lhs else rhs.

(** [typeof asrResult === 'string' ? asrResult
      : typeof asrResult.text === 'string' ? asrResult.text : ''] *)
Definition transcriptText_of (asrResult : AsrResult) : string :=
  match asrResult with
  | AsrString s => s
  | AsrObject (Some text) _ => text
  | AsrObject None _ => ""
  end.

(** [typeof asrResult === 'object' && asrResult?.language]; [None] stands
    for [false] and [undefined]. *)
Definition detectedLanguage_of (asrResult : AsrResult) : option string :=
  match asrResult with
  | AsrString _ => None
  | AsrObject _ language => language
  end.

(** [detectedLanguage && isSupportedLanguage(detectedLanguage)
      ? TRANSLATION_LANG[detectedLanguage] : TRANSLATION_LANG.en] *)
Definition src_lang_of (detectedLanguage : option string) : string :=
  match detectedLanguage with
  | Some l =>
      if truthy l && isSupportedLanguage l
      then at_language TRANSLATION_LANG l
      else at_language TRANSLATION_LANG "en"
  | None => at_language TRANSLATION_LANG "en"
  end.

(** [typeof item === 'string' ? item : item?.translation_text ?? ''], where
    [None] is the [undefined] first element of an empty array. *)
Definition item_text (item : option TranslationItem) : string :=
  match item with
  | Some (ItemString s) => s
  | Some (ItemObject translation_text) => nullish translation_text ""
  | None => ""
  end.

(** [Array.isArray(translationResult) ? ...translationResult[0]...
      : ...translationResult...] *)
Definition translatedText_of (translationResult : TranslationResult) : string :=
  match translationResult with
  | TranslationArray items => item_text (head items)
  | TranslationOne item => item_text (Some item)
  end.

(** [(Array.isArray(audioData) ? audioData : [audioData]).map(...)]; the
    mapped function returns a channel that is a [Float32Array] as it is. *)
Definition channelData_of (audioData : TtsAudio) : list Float32Array :=
  match audioData with
  | AudioChannels channels => channels
  | AudioChannel channel => [channel]
  end.

Definition MISSING_AUDIO : NextResponse :=
  mkResponse (BodyText "Missing audio file payload") 400 [].
Definition UNSUPPORTED_LANGUAGE : NextResponse :=
  mkResponse (BodyText "Unsupported target language") 400 [].
Definition FAILED : NextResponse :=
  mkResponse (BodyText "Failed to process audio") 500 [].
(** The double quote character. *)
Definition dquote : string := String (Ascii.ascii_of_nat 34) "".

(** The response built from the mix; no [status] is given, which is 200. *)
Definition success (output : Buffer) : NextResponse :=
  mkResponse (BodyBytes output) 200
    [ ("Content-Type", "audio/mpeg");
      ("Content-Disposition",
       "attachment; filename=" ++ dquote ++ "translated-mix.mp3" ++ dquote) ].

(** The body of the inner [try] block, from the computation of the paths to
    the [return] of the mixed audio. *)
Definition process (env : Env) (audioFile : File) (targetLanguage workspace : string)
  : Js NextResponse :=
  let originalExt := or_else (path_extname env (name audioFile)) ".wav" in
  let originalPath := path_join env workspace ("original" ++ originalExt) in
  let wavPath := path_join env workspace "original.wav" in
  let instrumentalPath := path_join env workspace "instrumental.wav" in
  let voicePath := path_join env workspace "voice.wav" in
  let voiceProcessedPath := path_join env workspace "voice-processed.wav" in
  let mixPath := path_join env workspace "mix.mp3" in
  let* audioBuffer := call (OpArrayBuffer (name audioFile)) (arrayBuffer audioFile) in
  let* _ := call (OpWriteFile originalPath) (writeFile env originalPath audioBuffer) in
  let* _ := call (OpConvertToWav originalPath wavPath)
                 (convertToWav env originalPath wavPath) in
  let* _ := call (OpCreateInstrumental wavPath instrumentalPath)
                 (createInstrumental env wavPath instrumentalPath) in
  let* asrPromise := lift getASR in
  let* _ := await (settles env asrPromise) in
  let* asrResult := call (OpAsr wavPath) (asr env wavPath) in
  let transcriptText := transcriptText_of asrResult in
  if negb (truthy transcriptText)
  then throw (mkError "Unable to derive transcript from audio.")
  else
  let detectedLanguage := detectedLanguage_of asrResult in
  let* translatorPromise := lift getTranslator in
  let* _ := await (settles env translatorPromise) in
  let src_lang := src_lang_of detectedLanguage in
  let tgt_lang := at_language TRANSLATION_LANG targetLanguage in
  let* translationResult :=
    call (OpTranslate transcriptText src_lang tgt_lang)
         (translator env transcriptText src_lang tgt_lang) in
  let translatedText := translatedText_of translationResult in
  if negb (truthy translatedText)
  then throw (mkError "Translation failed to produce output.")
  else
  let* ttsPromise := lift (getTTS targetLanguage) in
  let* _ := await (settles env ttsPromise) in
  let* ttsResult := call (OpTts translatedText) (tts env translatedText) in
  let sampleRate := sampling_rate ttsResult in
  let audioData := audio ttsResult in
  let channelData := channelData_of audioData in
  let* wavArrayBuffer := call OpEncode (WavEncoder_encode env sampleRate channelData) in
  let* _ := call (OpWriteFile voicePath) (writeFile env voicePath wavArrayBuffer) in
  let* _ := call (OpNormalizeVoice voicePath voiceProcessedPath)
                 (normalizeVoice env voicePath voiceProcessedPath) in
  let* _ := call (OpMixTracks instrumentalPath voiceProcessedPath mixPath)
                 (mixTracks env instrumentalPath voiceProcessedPath mixPath) in
  let* output := call (OpReadFile mixPath) (readFile env mixPath) in
  ret (success output).

(** [export async function POST(request: NextRequest)] *)
Definition POST (env : Env) (request : NextRequest) : Js NextResponse :=
  try_catch
    (let* formData := await (formData request) in
     let audioFile := FormData_get "audio" formData in
     let targetLanguageRaw :=
       nullish (FormData_get "targetLanguage" formData) (EntryString "es") in
     match audioFile with
     | Some (EntryFile audioFile) =>
         match targetLanguageRaw with
         | EntryString targetLanguage =>
             if isSupportedLanguage targetLanguage
             then
               let* workspace :=
                 do_mkdtemp env (path_join env (tmpdir env) "audio-transform-") in
               try_finally
                 (process env audioFile targetLanguage workspace)
                 (do_rm env workspace)
             else ret UNSUPPORTED_LANGUAGE
         | EntryFile _ => ret UNSUPPORTED_LANGUAGE
         end
     | _ => ret MISSING_AUDIO
     end)
    (λ error,
       let* _ := console_error error in
       ret FAILED).

(** ** Sample requests and environments *)

Module Sample.

Definition clip : File := mkFile "talk.mp3" (Fulfilled [Byte.x52; Byte.x49]).

Definition form (language : option FormDataEntryValue) : FormData :=
  ("audio", EntryFile clip) ::
  match language with
  | Some v => [("targetLanguage", v)]
  | None => []
  end.

Definition request (language : option FormDataEntryValue) : NextRequest :=
  mkRequest (Fulfilled (form language)).

(** An environment in which every call succeeds. *)
Definition calm : Env :=
  {| tmpdir := "/tmp";
     path_join := λ a b, a ++ "/" ++ b;
     path_extname := λ _, ".mp3";
     mkdtemp := λ pfx, Fulfilled (pfx ++ "Ab3xZ9");
     writeFile := λ _ _, Fulfilled tt;
     readFile := λ _, Fulfilled [Byte.xff; Byte.xfb];
     rm := λ _, Fulfilled tt;
     convertToWav := λ _ _, Fulfilled tt;
     createInstrumental := λ _ _, Fulfilled tt;
     normalizeVoice := λ _ _, Fulfilled tt;
     mixTracks := λ _ _ _, Fulfilled tt;
     settles := λ _, Fulfilled tt;
     asr := λ _, Fulfilled (AsrObject (Some "good morning") (Some "en"));
     translator := λ _ _ _, Fulfilled (TranslationArray [ItemObject (Some "buenos dias")]);
     tts := λ _, Fulfilled (mkTtsResult (AudioChannel [0%N; 1056964608%N]) 16000);
     WavEncoder_encode := λ _ _, Fulfilled [Byte.x52; Byte.x49; Byte.x46; Byte.x46] |}.

Definition with_rm (r : Settled unit) (env : Env) : Env :=
  mkEnv (tmpdir env) (path_join env) (path_extname env) (mkdtemp env)
        (writeFile env) (readFile env) (λ _, r) (convertToWav env)
        (createInstrumental env) (normalizeVoice env) (mixTracks env)
        (settles env) (asr env) (translator env) (tts env)
        (WavEncoder_encode env).

Definition with_settles (f : PromiseId → Settled unit) (env : Env) : Env :=
  mkEnv (tmpdir env) (path_join env) (path_extname env) (mkdtemp env)
        (writeFile env) (readFile env) (rm env) (convertToWav env)
        (createInstrumental env) (normalizeVoice env) (mixTracks env)
        f (asr env) (translator env) (tts env)
        (WavEncoder_encode env).

Definition with_asr (r : Settled AsrResult) (env : Env) : Env :=
  mkEnv (tmpdir env) (path_join env) (path_extname env) (mkdtemp env)
        (writeFile env) (readFile env) (rm env) (convertToWav env)
        (createInstrumental env) (normalizeVoice env) (mixTracks env)
        (settles env) (λ _, r) (translator env) (tts env)
        (WavEncoder_encode env).

Definition with_mixTracks (r : Settled unit) (env : Env) : Env :=
  mkEnv (tmpdir env) (path_join env) (path_extname env) (mkdtemp env)
        (writeFile env) (readFile env) (rm env) (convertToWav env)
        (createInstrumental env) (normalizeVoice env) (λ _ _ _, r)
        (settles env) (asr env) (translator env) (tts env)
        (WavEncoder_encode env).

Definition boom : JsError := mkError "EBUSY: resource busy or locked".

End Sample.

(** ** The instrumental separator

    [createInstrumental] is imported from [@/lib/audio], a module whose
    source is missing: the handler only awaits it on two paths.  What
    follows is modelled from sections 3 and 4.3 of the specification. *)

Module Separator.
Section Samples.

(** The samples and their arithmetic, left open: nothing below depends on
    how floating-point numbers subtract or average. *)
Variable sample : Type.
Variable zero : sample.
Variable sub : sample → sample → sample.
Variable mean : sample → sample → sample.
Variable level : sample → sample.

(** Modelled from the spec: the [AudioBuffer] of [@/lib/audio] is missing;
    section 3 has it hold the samples of each channel, the rate in Hz and
    the number of channels. *)
Record AudioBuffer := mkAudioBuffer {
  channels : list (list sample);
  sampleRate : Z;
  channelCount : nat
}.

(** Modelled from the spec: the error of section 4.3 for a buffer that
    breaks the invariant. *)
Inductive AudioError : Type :=
| InvalidAudioStateError.

(** Modelled from the spec: the length of a buffer, the number of samples
    of a channel. *)
Definition frames (x : AudioBuffer) : nat :=
  match channels x with
  | c :: _ => length c
  | [] => 0
  end.

(** Modelled from the spec: the invariant of section 3, one or two
    channels, as many as [channelCount] says, all of one length. *)
Definition valid (x : AudioBuffer) : bool :=
  bool_decide (channelCount x = 1 ∨ channelCount x = 2)
  && bool_decide (length (channels x) = channelCount x)
  && forallb (λ c, Nat.eqb (length c) (frames x)) (channels x).

(** Modelled from the spec: centre-channel cancellation, one channel minus
    the level-matched other. *)
Definition cancel (a b : list sample) : list sample :=
  zip_with (λ s t, sub s (level t)) a b.

(** Modelled from the spec: a low-pass, the running mean of a channel with
    its own past. *)
Fixpoint low_pass (previous : sample) (c : list sample) : list sample :=
  match c with
  | [] => []
  | s :: c' => mean previous s :: low_pass s c'
  end.

(** Modelled from the spec: low-pass-weighted suppression for a single
    channel. *)
Definition suppress (c : list sample) : list sample :=
  zip_with sub c (low_pass zero c).

(** Modelled from the spec: [createInstrumental] of [@/lib/audio] is
    missing; section 4.3 describes it as [separateInstrumental]: for
    stereo input, centre-channel cancellation, one channel subtracted from
    the other after level matching; for mono input, a low-pass-weighted
    suppression; mismatched channel lengths are an
    [InvalidAudioStateError]. *)
Definition separateInstrumental (x : AudioBuffer) : AudioError + AudioBuffer :=
  if valid x then
    match channels x with
    | [l; r] => inr (mkAudioBuffer [cancel l r; cancel r l] (sampleRate x) (channelCount x))
    | [m] => inr (mkAudioBuffer [suppress m] (sampleRate x) (channelCount x))
    | _ => inl InvalidAudioStateError
    end
  else inl InvalidAudioStateError.

End Samples.

Arguments channels {sample} _.
Arguments sampleRate {sample} _.
Arguments channelCount {sample} _.
Arguments mkAudioBuffer {sample} _ _ _.
Arguments frames {sample} _.
Arguments valid {sample} _.
Arguments cancel {sample} _ _ _ _.
Arguments low_pass {sample} _ _ _.
Arguments suppress {sample} _ _ _ _.
Arguments separateInstrumental {sample} _ _ _ _ _.

(** A stereo buffer of whole numbers, of four samples per channel. *)
Definition chord : AudioBuffer Z :=
  mkAudioBuffer [[3; 5; -2; 8]; [1; 5; 4; -6]]%Z 44100 2.

End Separator.

(** ** The stages of the pipeline *)

Inductive Stage : Type :=
| Normalizing
| Separating
| Transcribing
| Translating
| Synthesizing
| PostProcessingVoice
| Mixing.

(** The order in which the orchestrator is to go through the stages. *)
Definition PIPELINE_ORDER : list Stage :=
  [Normalizing; Separating; Transcribing; Translating; Synthesizing;
   PostProcessingVoice; Mixing].

(** The stage a call starts, for the calls that start one. *)
Definition stage_of (op : Op) : option Stage :=
  match op with
  | OpConvertToWav _ _ => Some Normalizing
  | OpCreateInstrumental _ _ => Some Separating
  | OpAsr _ => Some Transcribing
  | OpTranslate _ _ _ => Some Translating
  | OpTts _ => Some Synthesizing
  | OpNormalizeVoice _ _ => Some PostProcessingVoice
  | OpMixTracks _ _ _ => Some Mixing
  | _ => None
  end.

Definition stage_of_event (ev : Event) : option Stage :=
  match ev with
  | Call op => stage_of op
  | Raised _ => None
  end.

(** The stages entered during a run, in the order of entry. *)
Definition stages_of (evs : list Event) : list Stage :=
  omap stage_of_event evs.

(** No exception is raised among the events. *)
Definition quiet (evs : list Event) : bool :=
  forallb (λ ev, match ev with Raised _ => false | Call _ => true end) evs.

(** Neither [mkdtemp] nor [rm] is called among the events. *)
Definition keeps_workspace (evs : list Event) : bool :=
  forallb (λ ev, match ev with
                 | Call (OpMkdtemp _) | Call (OpRm _) => false
                 | _ => true
                 end) evs.




(** ** Reasoning about runs *)

(** [outcome m Q w]: running [m] from [w] ends in a completion and a state
    that satisfy [Q]. *)
Definition outcome {A : Type} (m : Js A) (Q : Completion A → World → Prop)
    (w : World) : Prop :=
  Q (m w).1 (m w).2.

(** The module-level slots agree with the constructions made: no model was
    constructed twice, a cached promise is the one of its model's
    construction, and a model with an empty slot was never constructed. *)
Definition registry_ok (w : World) : Prop :=
  NoDup (constructed w) ∧
  ∀ g, well_typed g = true →
       match cached g w with
       | Some p => constructed w !! p = Some (model_of g)
       | None => model_of g ∉ constructed w
       end.

(** ** The ways a request is handled *)

(** The prefix of the scratch directory:
    [path.join(tmpdir(), 'audio-transform-')]. *)
Definition workspace_prefix (env : Env) : string :=
  path_join env (tmpdir env) "audio-transform-".

(** The request carries a file under [audio] and asks, by its field or by
    the default, for a supported target language. *)
Definition passes_validation (request : NextRequest) (audioFile : File)
    (targetLanguage : string) : Prop :=
  ∃ fd, formData request = Fulfilled fd ∧
        FormData_get "audio" fd = Some (EntryFile audioFile) ∧
        nullish (FormData_get "targetLanguage" fd) (EntryString "es")
          = EntryString targetLanguage ∧
        isSupportedLanguage targetLanguage = true.

(** The state after [mkdtemp] has created [dir]. *)
Definition created (env : Env) (dir : string) (w : World) : World :=
  set_dirs ({[dir]} ∪ dirs w) (emit (Call (OpMkdtemp (workspace_prefix env))) w).

(** The state after [rm] has removed [dir]. *)
Definition removed (dir : string) (w : World) : World :=
  set_dirs (dirs w ∖ {[dir]}) (emit (Call (OpRm dir)) w).

(** The state after [rm] was called on [dir] and rejected with [e]. *)
Definition not_removed (dir : string) (e : JsError) (w : World) : World :=
  emit (Raised e) (emit (Call (OpRm dir)) w).

(** The state after the [catch] block has printed [e]. *)
Definition logged (e : JsError) (w : World) : World :=
  set_console (console w ++ [e]) w.

(** The exits of [POST], each with the conditions under which it is taken,
    the response and the state it leaves. *)
Inductive Handled (env : Env) (request : NextRequest) (w : World)
  : NextResponse → World → Prop :=
| handled_no_form e :
    formData request = Rejected e →
    Handled env request w FAILED (logged e (emit (Raised e) w))
| handled_no_audio fd :
    formData request = Fulfilled fd →
    (∀ f, FormData_get "audio" fd ≠ Some (EntryFile f)) →
    Handled env request w MISSING_AUDIO w
| handled_no_language fd f :
    formData request = Fulfilled fd →
    FormData_get "audio" fd = Some (EntryFile f) →
    (∀ l, nullish (FormData_get "targetLanguage" fd) (EntryString "es") = EntryString l →
          isSupportedLanguage l = false) →
    Handled env request w UNSUPPORTED_LANGUAGE w
| handled_no_workspace f l e :
    passes_validation request f l →
    mkdtemp env (workspace_prefix env) = Rejected e →
    Handled env request w FAILED
      (logged e (emit (Raised e) (emit (Call (OpMkdtemp (workspace_prefix env))) w)))
| handled_done f l ws r w2 :
    passes_validation request f l →
    mkdtemp env (workspace_prefix env) = Fulfilled ws →
    process env f l ws (created env ws w) = (Normal r, w2) →
    rm env ws = Fulfilled tt →
    Handled env request w r (removed ws w2)
| handled_failed f l ws e w2 :
    passes_validation request f l →
    mkdtemp env (workspace_prefix env) = Fulfilled ws →
    process env f l ws (created env ws w) = (Throw e, w2) →
    rm env ws = Fulfilled tt →
    Handled env request w FAILED (logged e (removed ws w2))
| handled_not_removed f l ws c e w2 :
    passes_validation request f l →
    mkdtemp env (workspace_prefix env) = Fulfilled ws →
    process env f l ws (created env ws w) = (c, w2) →
    rm env ws = Rejected e →
    Handled env request w FAILED (logged e (not_removed ws e w2)).

(** The getter [g] has [p] cached and its model was constructed [k] times. *)
Definition kept (g : Getter) (p : PromiseId) (k : nat) (w : World) : Prop :=
  cached g w = Some p ∧ constructions (model_of g) w = k.

(** A request with target [language] calls [g]. *)
Definition calls_getter (language : string) (g : Getter) : Prop :=
  g = GetASR ∨ g = GetTranslator ∨ g = GetTTS language.

(** The state after the requests of a list were handled one after another,
    each in the outside world it met. *)
Fixpoint serve (requests : list (Env * NextRequest)) (w : World) : World :=
  match requests with
  | [] => w
  | (env, request) :: rest => serve rest (POST env request w).2
  end.

(** ** Files and constructions of a run *)

(** The files a call reads or writes. *)
Definition files_of (op : Op) : list string :=
  match op with
  | OpWriteFile file => [file]
  | OpConvertToWav input output => [input; output]
  | OpCreateInstrumental input output => [input; output]
  | OpAsr input => [input]
  | OpNormalizeVoice input output => [input; output]
  | OpMixTracks instrumental voice output => [instrumental; voice; output]
  | OpReadFile file => [file]
  | _ => []
  end.

(** The files read or written during a run. *)
Definition files_of_events (evs : list Event) : list string :=
  flat_map (λ ev, match ev with
                  | Call op => files_of op
                  | Raised _ => []
                  end) evs.

(** The calls of [convertToWav] among the events, each with its input and
    its output. *)
Definition conversions (evs : list Event) : list (string * string) :=
  omap (λ ev, match ev with
              | Call (OpConvertToWav input output) => Some (input, output)
              | _ => None
              end) evs.

(** The names of the files of a workspace, for an upload of the given name. *)
Definition workspace_files (env : Env) (fileName : string) : list string :=
  [ "original" ++ or_else (path_extname env fileName) ".wav";
    "original.wav"; "instrumental.wav"; "voice.wav"; "voice-processed.wav";
    "mix.mp3" ].

(** The getters a request for [language] calls, in the order of the calls. *)
Definition GETTERS (language : string) : list Getter :=
  [GetASR; GetTranslator; GetTTS language].

(** The models that the getters of a list construct when called from [w]:
    those of the getters with nothing cached. *)
Definition to_construct (gs : list Getter) (w : World) : list (string * string) :=
  map model_of (filter (λ g, cached g w = None) gs).


(** Since [w], the getters of [reached] were called and no other: their
    models were constructed where nothing was cached, and the slots of the
    other getters are as in [w]. *)
Definition constructed_since (w : World) (reached : list Getter) (w1 : World) : Prop :=
  constructed w1 = (constructed w ++ to_construct reached w)%list ∧
  ∀ g, g ∉ reached → cached g w1 = cached g w.

(** * The page: [src/app/page.tsx]

    The component [HomePage] keeps five state variables; [handleSubmit]
    sends the file and the language to the route and follows the answer.
    The browser is one explicit state: the variables of the component, the
    pending timers, and what was alerted, printed, fetched and published as
    object URL.  What the network answers, and which timers fire while an
    answer is awaited, is given from outside. *)

Module Page.

(** [const SUPPORTED_LANGUAGES = [{ code, label }, ...]] *)
Record LanguageEntry := mkEntry {
  code : string;
  label : string
}.

Definition SUPPORTED_LANGUAGES : list LanguageEntry :=
  [ mkEntry "en" "English"; mkEntry "es" "Spanish"; mkEntry "fr" "French";
    mkEntry "de" "German"; mkEntry "it" "Italian"; mkEntry "pt" "Portuguese" ].

(** [type StatusStep] *)
Inductive StatusStep : Type :=
| idle
| uploading
| transcribing
| translating
| synthesizing
| mixing
| completed
| error.

#[global] Instance StatusStep_eq_dec : EqDecision StatusStep.
Proof. solve_decision. Defined.

(** The values given to [setProgress]: [0], [0.1], [0.2 + index * 0.2] and
    [1], each as the expression that computes it. *)
Inductive Progress : Type :=
| ProgressZero
| ProgressTenth
| ProgressTimeline (index : nat)
| ProgressOne.

(** The state variables of [HomePage]. *)
Record State := mkState {
  file : option File;
  language : string;
  status : StatusStep;
  progress : Progress;
  downloadUrl : option string
}.

(** The state of the first render: [useState(null)], [useState('es')],
    [useState('idle')], [useState(0)], [useState(null)]. *)
Definition initial_state : State :=
  mkState None "es" idle ProgressZero None.

(** A pending timeout: its handle, its delay in milliseconds, and the step
    and the index its callback was made with. *)
Record Timer := mkTimer {
  timer_id : nat;
  timer_delay : Z;
  timer_step : StatusStep;
  timer_index : nat
}.

(** A [Uint8Array]: a view of [byteLength] bytes at [byteOffset] of a
    buffer. *)
Record Uint8Array := mkUint8Array {
  buffer : list Byte.byte;
  byteOffset : nat;
  byteLength : nat
}.

(** [new Blob(parts, { type })] *)
Record Blob := mkBlob {
  parts : list (list Byte.byte);
  type : string
}.

(** An awaited result, with the handles of the timers that fire while it is
    awaited, in the order in which they fire. *)
Definition Waited (A : Type) : Type := list nat * Settled A.

(** What the successive calls of [reader.read()] give: a chunk with
    [done: false], whose [value] may be missing, then the end of the
    stream, [done: true], or a rejection. *)
Inductive Stream : Type :=
| Chunk (fired : list nat) (value : option Uint8Array) (rest : Stream)
| Done (fired : list nat)
| Failed (fired : list nat) (e : JsError).

(** The [Response] of [fetch]: [response.ok], what [response.text()]
    settles to, and the stream of [response.body], if there is a body. *)
Record Response := mkPageResponse {
  ok : bool;
  text : Waited string;
  body : option Stream
}.

(** The world outside the page. *)
Record Net := mkNet {
  fetch : string → FormData → Waited Response;
  createObjectURL : Blob → string
}.

Record Browser := mkBrowser {
  state : State;
  (** the pending timeouts, oldest first *)
  timers : list Timer;
  (** the handle that the next [setTimeout] returns *)
  next_timer : nat;
  alerts : list string;
  console : list JsError;
  (** the requests sent by [fetch]: the address and the form data *)
  fetches : list (string * FormData);
  (** the object URLs created, each with its blob *)
  objectURLs : list (string * Blob);
  defaultPrevented : bool
}.

Definition set_state (f : State → State) (b : Browser) : Browser :=
  mkBrowser (f (state b)) (timers b) (next_timer b) (alerts b) (console b)
            (fetches b) (objectURLs b) (defaultPrevented b).

Definition setStatus (v : StatusStep) : Browser → Browser :=
  set_state (λ s, mkState (file s) (language s) v (progress s) (downloadUrl s)).

Definition setProgress (v : Progress) : Browser → Browser :=
  set_state (λ s, mkState (file s) (language s) (status s) v (downloadUrl s)).

Definition setDownloadUrl (v : option string) : Browser → Browser :=
  set_state (λ s, mkState (file s) (language s) (status s) (progress s) v).

Definition set_timers (v : list Timer) (b : Browser) : Browser :=
  mkBrowser (state b) v (next_timer b) (alerts b) (console b)
            (fetches b) (objectURLs b) (defaultPrevented b).

(** [event.preventDefault()] *)
Definition preventDefault (b : Browser) : Browser :=
  mkBrowser (state b) (timers b) (next_timer b) (alerts b) (console b)
            (fetches b) (objectURLs b) true.

(** [alert(message)] *)
Definition alert (message : string) (b : Browser) : Browser :=
  mkBrowser (state b) (timers b) (next_timer b) (alerts b ++ [message]) (console b)
            (fetches b) (objectURLs b) (defaultPrevented b).

(** [console.error(error)] *)
Definition console_error (e : JsError) (b : Browser) : Browser :=
  mkBrowser (state b) (timers b) (next_timer b) (alerts b) (console b ++ [e])
            (fetches b) (objectURLs b) (defaultPrevented b).

(** [setTimeout(() => { setStatus(step); setProgress(0.2 + index * 0.2) },
    delay)]: the timeout is pending, and its handle is returned. *)
Definition setTimeout (step : StatusStep) (index : nat) (delay : Z) (b : Browser)
  : nat * Browser :=
  (next_timer b,
   mkBrowser (state b) (timers b ++ [mkTimer (next_timer b) delay step index])
             (S (next_timer b)) (alerts b) (console b)
             (fetches b) (objectURLs b) (defaultPrevented b)).

(** [clearTimeout(id)] *)
Definition clearTimeout (id : nat) (b : Browser) : Browser :=
  set_timers (filter (λ t, timer_id t ≠ id) (timers b)) b.

(** The timeout [id] fires: its callback runs, if it is still pending. *)
Definition fire (id : nat) (b : Browser) : Browser :=
  match filter (λ t, timer_id t = id) (timers b) with
  | t :: _ =>
      setProgress (ProgressTimeline (timer_index t))
        (setStatus (timer_step t) (clearTimeout id b))
  | [] => b
  end.

Definition fire_all (ids : list nat) (b : Browser) : Browser :=
  fold_left (λ b id, fire id b) ids b.

(** Actions of the page that may throw. *)
Definition Act (A : Type) : Type := Browser → Completion A * Browser.

Definition aret {A : Type} (a : A) : Act A := λ b, (Normal a, b).

Definition abind {A B : Type} (m : Act A) (k : A → Act B) : Act B :=
  λ b, match m b with
       | (Normal a, b1) => k a b1
       | (Throw e, b1) => (Throw e, b1)
       end.

Notation "'let+' x ':=' m 'in' k" := (abind m (λ x, k))
  (at level 10, x name, m at level 100, k at level 200).

Definition athrow {A : Type} (e : JsError) : Act A := λ b, (Throw e, b).

Definition aset (f : Browser → Browser) : Act unit := λ b, (Normal tt, f b).

(** [await promise]: the timers that fire meanwhile run first. *)
Definition await_ {A : Type} (r : Waited A) : Act A :=
  λ b, match r.2 with
       | Fulfilled a => (Normal a, fire_all r.1 b)
       | Rejected e => (Throw e, fire_all r.1 b)
       end.

(** [await fetch(input, { method: 'POST', body })] *)
Definition do_fetch (net : Net) (input : string) (formData : FormData) : Act Response :=
  λ b, await_ (fetch net input formData)
         (mkBrowser (state b) (timers b) (next_timer b) (alerts b) (console b)
                    (fetches b ++ [(input, formData)]) (objectURLs b)
                    (defaultPrevented b)).

(** [URL.createObjectURL(blob)] *)
Definition do_createObjectURL (net : Net) (blob : Blob) : Act string :=
  λ b, (Normal (createObjectURL net blob),
        mkBrowser (state b) (timers b) (next_timer b) (alerts b) (console b)
                  (fetches b) (objectURLs b ++ [(createObjectURL net blob, blob)])
                  (defaultPrevented b)).

(** [buffer.slice(begin, end)] of an [ArrayBuffer]. *)
Definition slice (begin end_ : nat) (bytes : list Byte.byte) : list Byte.byte :=
  take (end_ - begin) (drop begin bytes).

(** [value.buffer.slice(value.byteOffset, value.byteOffset + value.byteLength)] *)
Definition chunk_of (value : Uint8Array) : list Byte.byte :=
  slice (byteOffset value) (byteOffset value + byteLength value) (buffer value).

(** The loop [while (true) { const { value, done } = await reader.read();
    if (done) break; if (value) { ...; chunks.push(chunk) } }]. *)
Fixpoint read_all (reader : Stream) (chunks : list (list Byte.byte))
  : Act (list (list Byte.byte)) :=
  match reader with
  | Done fired => await_ (fired, Fulfilled chunks)
  | Failed fired e => await_ (fired, Rejected e)
  | Chunk fired value rest =>
      let+ _ := await_ (fired, Fulfilled tt) in
      match value with
      | Some value => read_all rest (chunks ++ [chunk_of value])
      | None => read_all rest chunks
      end
  end.

(** [const timeline: StatusStep[]] *)
Definition timeline : list StatusStep :=
  [transcribing; translating; synthesizing; mixing].

(** [timeline.forEach((step, index) => { const timeout = setTimeout(...,
    (index + 1) * 5000); timeouts.push(timeout) })], from [index] on. *)
Fixpoint schedule (steps : list StatusStep) (index : nat) (b : Browser)
  : list nat * Browser :=
  match steps with
  | [] => ([], b)
  | step :: steps' =>
      let '(timeout, b1) :=
        setTimeout step index ((Z.of_nat index + 1) * 5000)%Z b in
      let '(timeouts, b2) := schedule steps' (S index) b1 in
      (timeout :: timeouts, b2)
  end.

(** The [try] block of [handleSubmit]. *)
Definition send (net : Net) (file : File) (language : string) : Act unit :=
  let formData := [("audio", EntryFile file); ("targetLanguage", EntryString language)] in
  let+ response := do_fetch net "/api/process-audio" formData in
  let+ _ := (if negb (ok response)
             then let+ message := await_ (text response) in athrow (mkError message)
             else aret tt) in
  match body response with
  | None => athrow (mkError "Unable to read response stream.")
  | Some reader =>
      let+ chunks := read_all reader [] in
      let blob := mkBlob chunks "audio/mpeg" in
      let+ url := do_createObjectURL net blob in
      let+ _ := aset (setDownloadUrl (Some url)) in
      let+ _ := aset (setStatus completed) in
      aset (setProgress ProgressOne)
  end.

(** What [handleSubmit] does before it awaits anything, for a selected
    file: the status, the progress, the link, and the four timeouts. *)
Definition begin_submit (b : Browser) : list nat * Browser :=
  schedule timeline 0
    (setDownloadUrl None (setProgress ProgressTenth (setStatus uploading b))).

(** [const handleSubmit = async (event) => { ... }] *)
Definition handleSubmit (net : Net) (b : Browser) : Browser :=
  let b := preventDefault b in
  match file (state b) with
  | None => alert "Please select an audio file first." b
  | Some selected =>
      let '(timeouts, b1) := begin_submit b in
      let '(c, b2) := send net selected (language (state b)) b1 in
      let b3 := match c with
                | Normal _ => b2
                | Throw e => setStatus error (console_error e b2)
                end in
      fold_left (λ b id, clearTimeout id b) timeouts b3
  end.

(** The [onChange] of the file input: [event.target.files?.[0] ?? null]. *)
Definition select_file (selected : option File) (b : Browser) : Browser :=
  set_state (λ s, mkState selected (language s) idle ProgressZero None) b.

(** The [onChange] of the language select: [setLanguage(event.target.value)]. *)
Definition select_language (value : string) (b : Browser) : Browser :=
  set_state (λ s, mkState (file s) value (status s) (progress s) (downloadUrl s)) b.

(** [disabled={!file || status === 'uploading'}] of the submit button. *)
Definition submit_disabled (s : State) : bool :=
  negb (bool_decide (is_Some (file s))) || bool_decide (status s = uploading).

(** The bytes of a blob: its parts one after another. *)
Definition blob_bytes (blob : Blob) : list Byte.byte := concat (parts blob).

(** The bytes a stream delivers when read to its end. *)
Fixpoint stream_bytes (reader : Stream) : list Byte.byte :=
  match reader with
  | Chunk _ (Some value) rest => chunk_of value ++ stream_bytes rest
  | Chunk _ None rest => stream_bytes rest
  | Done _ | Failed _ _ => []
  end.

(** The stream ends with [done: true]. *)
Fixpoint ends_done (reader : Stream) : bool :=
  match reader with
  | Chunk _ _ rest => ends_done rest
  | Done _ => true
  | Failed _ _ => false
  end.

(** The rejection with which the reading of a stream stops, if any. *)
Fixpoint stream_error (reader : Stream) : option JsError :=
  match reader with
  | Chunk _ _ rest => stream_error rest
  | Done _ => None
  | Failed _ e => Some e
  end.

(** The browser when the page has just been rendered. *)
Definition initial_browser : Browser :=
  mkBrowser initial_state [] 0 [] [] [] [] false.

(** From [b] to [b1] nothing happened but timers firing or being cleared:
    the file, the language and the link are the same, the progress is the
    same or the one of a timer, all that was alerted, printed, fetched and
    published is the same, and the pending timers of [b1] are among those of
    [b]. *)
Definition steady (b b1 : Browser) : Prop :=
  file (state b1) = file (state b) ∧
  language (state b1) = language (state b) ∧
  downloadUrl (state b1) = downloadUrl (state b) ∧
  (progress (state b1) = progress (state b) ∨
   ∃ index, progress (state b1) = ProgressTimeline index) ∧
  timers b1 `sublist_of` timers b ∧
  next_timer b1 = next_timer b ∧
  alerts b1 = alerts b ∧
  console b1 = console b ∧
  fetches b1 = fetches b ∧
  objectURLs b1 = objectURLs b ∧
  defaultPrevented b1 = defaultPrevented b.

(** The ways in which the [try] block of [handleSubmit] throws. *)
Inductive SendError (net : Net) (formData : FormData) : JsError → Prop :=
| fetch_rejected fired e :
    fetch net "/api/process-audio" formData = (fired, Rejected e) →
    SendError net formData e
| answer_not_ok fired response fired' message :
    fetch net "/api/process-audio" formData = (fired, Fulfilled response) →
    ok response = false →
    text response = (fired', Fulfilled message) →
    SendError net formData (mkError message)
| answer_unreadable fired response fired' e :
    fetch net "/api/process-audio" formData = (fired, Fulfilled response) →
    ok response = false →
    text response = (fired', Rejected e) →
    SendError net formData e
| answer_without_body fired response :
    fetch net "/api/process-audio" formData = (fired, Fulfilled response) →
    ok response = true →
    body response = None →
    SendError net formData (mkError "Unable to read response stream.")
| stream_failed fired response reader e :
    fetch net "/api/process-audio" formData = (fired, Fulfilled response) →
    ok response = true →
    body response = Some reader →
    stream_error reader = Some e →
    SendError net formData e.

(** The answer to the request is fine: [ok], with a body that can be read
    to its end. *)
Definition answered (net : Net) (formData : FormData) (reader : Stream) : Prop :=
  ∃ fired response,
    fetch net "/api/process-audio" formData = (fired, Fulfilled response) ∧
    ok response = true ∧
    body response = Some reader ∧
    ends_done reader = true.

End Page.


(** * Properties *)

(** ** The language tables *)

Lemma isSupportedLanguage_elem (l : string) :
  isSupportedLanguage l = true ↔ l ∈ SupportedLanguage.
Proof.
  unfold isSupportedLanguage, SupportedLanguage. split.
  - destruct (TTS_MODEL !! l) as [m|] eqn:E; [intros _|done].
    apply elem_of_list_to_map_2 in E.
    apply (list_elem_of_fmap_2 fst) in E. exact E.
  - intros H. repeat (apply elem_of_cons in H as [->|H]; [reflexivity|]).
    by apply elem_of_nil in H.
Qed.


Lemma TTS_MODEL_inj (l1 l2 : string) :
  isSupportedLanguage l1 = true → isSupportedLanguage l2 = true →
  at_language TTS_MODEL l1 = at_language TTS_MODEL l2 → l1 = l2.
Proof.
  intros H1%isSupportedLanguage_elem H2%isSupportedLanguage_elem.
  unfold SupportedLanguage in *.
  repeat (apply elem_of_cons in H1 as [->|H1]);
    try (by apply elem_of_nil in H1);
    repeat (apply elem_of_cons in H2 as [->|H2]);
    try (by apply elem_of_nil in H2);
    vm_compute; congruence.
Qed.

Lemma model_of_inj (g1 g2 : Getter) :
  well_typed g1 = true → well_typed g2 = true →
  model_of g1 = model_of g2 → g1 = g2.
Proof.
  destruct g1 as [| |l1], g2 as [| |l2]; simpl; intros H1 H2 E;
    try reflexivity; try discriminate E.
  f_equal. apply TTS_MODEL_inj; [done..|].
  unfold TTS_PIPELINE in E. congruence.
Qed.

(** Only the six own keys of the table are supported: an inherited property
    name, a longer tag or another case are not. *)
Example isSupportedLanguage_samples :
  map isSupportedLanguage ["pt"; "en"; "toString"; "en-US"; "EN"; ""]
  = [true; true; false; false; false; false].
Proof. vm_compute. reflexivity. Qed.

Example src_lang_of_samples :
  map src_lang_of [Some "fr"; Some "ja"; Some ""; None] = ["fr"; "en"; "en"; "en"].
Proof. vm_compute. reflexivity. Qed.

(** The shapes of an empty translation. *)
Example translatedText_of_samples :
  map translatedText_of
    [TranslationArray []; TranslationArray [ItemObject None; ItemString "hola"];
     TranslationArray [ItemString ""]; TranslationOne (ItemObject (Some ""));
     TranslationOne (ItemString ""); TranslationArray [ItemObject (Some "hola")]]
  = [""; ""; ""; ""; ""; "hola"].
Proof. reflexivity. Qed.

(** ** The pipeline singletons *)

(** A getter with a cached promise returns it and changes nothing. *)
Lemma run_getter_cached (g : Getter) (p : PromiseId) (w : World) :
  cached g w = Some p → run_getter g w = (p, w).
Proof.
  destruct g; simpl; unfold getASR, getTranslator, getTTS; by intros ->.
Qed.

(** A getter with an empty slot constructs its model and caches the promise. *)
Lemma run_getter_fresh (g : Getter) (w : World) :
  cached g w = None →
  ∃ w1, run_getter g w = (length (constructed w), w1) ∧
        constructed w1 = (constructed w ++ [model_of g])%list ∧
        cached g w1 = Some (length (constructed w)) ∧
        ∀ g', g' ≠ g → cached g' w1 = cached g' w.
Proof.
  destruct g as [| |l]; simpl; unfold getASR, getTranslator, getTTS;
    intros ->; simpl; eexists; (split; [reflexivity|]); simpl;
    (split; [reflexivity|]).
  - split; [reflexivity|]. by intros [| |l'] Hne.
  - split; [reflexivity|]. by intros [| |l'] Hne.
  - split; [apply lookup_insert_eq|].
    intros [| |l'] Hne; simpl; try reflexivity.
    apply lookup_insert_ne. congruence.
Qed.

(** The getters leave the disk, the trace and the console alone. *)
Lemma run_getter_frame (g : Getter) (w w1 : World) (p : PromiseId) :
  run_getter g w = (p, w1) →
  dirs w1 = dirs w ∧ trace w1 = trace w ∧ console w1 = console w.
Proof.
  destruct (cached g w) as [q|] eqn:E.
  - rewrite (run_getter_cached _ _ _ E). by intros [= _ <-].
  - destruct g; simpl in *; unfold getASR, getTranslator, getTTS;
      rewrite E; simpl; by intros [= _ <-].
Qed.

Lemma run_getter_spec (g : Getter) (w w1 : World) (p : PromiseId) :
  registry_ok w → well_typed g = true → run_getter g w = (p, w1) →
  registry_ok w1 ∧ constructed w `prefix_of` constructed w1 ∧
  cached g w1 = Some p ∧ constructed w1 !! p = Some (model_of g).
Proof.
  intros [Hnd Hreg] Hg Hrun.
  destruct (cached g w) as [q|] eqn:E.
  - rewrite (run_getter_cached _ _ _ E) in Hrun.
    injection Hrun as <- <-.
    pose proof (Hreg g Hg) as Hq. rewrite E in Hq.
    by repeat split.
  - destruct (run_getter_fresh g w E) as (w2 & Hrun2 & Hc & Hcg & Hother).
    rewrite Hrun2 in Hrun. injection Hrun as <- <-.
    pose proof (Hreg g Hg) as Hfresh. rewrite E in Hfresh.
    repeat split.
    + rewrite Hc. apply NoDup_app. repeat split; [done| |apply NoDup_singleton].
      intros x Hx ->%list_elem_of_singleton. done.
    + intros g' Hg'. destruct (decide (g' = g)) as [->|Hne].
      * rewrite Hcg, Hc. by apply list_lookup_middle.
      * rewrite (Hother g' Hne), Hc. pose proof (Hreg g' Hg') as H'.
        destruct (cached g' w) as [q|].
        -- by apply lookup_app_l_Some.
        -- rewrite elem_of_app, list_elem_of_singleton.
           intros [?|Heq]; [done|].
           apply Hne. by apply model_of_inj.
    + rewrite Hc. by apply prefix_app_r.
    + done.
    + rewrite Hc. by apply list_lookup_middle.
Qed.

Lemma run_getters_spec (gs : list Getter) :
  ∀ (w w' : World) (ps : list PromiseId),
    registry_ok w → Forall (λ g, well_typed g = true) gs →
    run_getters gs w = (ps, w') →
    registry_ok w' ∧ constructed w `prefix_of` constructed w' ∧
    length ps = length gs ∧
    ∀ i g p, gs !! i = Some g → ps !! i = Some p →
             constructed w' !! p = Some (model_of g).
Proof.
  induction gs as [|g gs IH]; intros w w' ps Hok Hwt Hrun; simpl in Hrun.
  - injection Hrun as <- <-. split_and!; try done.
  - destruct (run_getter g w) as [p w1] eqn:E1.
    destruct (run_getters gs w1) as [qs w2] eqn:E2.
    injection Hrun as <- <-.
    apply Forall_cons in Hwt as [Hg Hwt].
    destruct (run_getter_spec _ _ _ _ Hok Hg E1) as (Hok1 & Hpre1 & _ & Hp).
    destruct (IH _ _ _ Hok1 Hwt E2) as (Hok2 & Hpre2 & Hlen & Hall).
    split_and!; try done.
    + by etrans.
    + simpl. by rewrite Hlen.
    + intros [|i] g' p'; simpl.
      * intros [= <-] [= <-]. by eapply prefix_lookup_Some.
      * apply Hall.
Qed.

Lemma registry_ok_initial : registry_ok initial_world.
Proof.
  split; [apply NoDup_nil_2|].
  intros [| |l] _; simpl; apply not_elem_of_nil.
Qed.

(** In a list without duplicates an element that occurs is counted once. *)
Lemma NoDup_count_le {A : Type} `{EqDecision A} (x : A) (l : list A) :
  NoDup l → (length (filter (λ y, y = x) l) ≤ 1)%nat.
Proof.
  induction 1 as [|y l Hy Hnd IH]; simpl; [lia|].
  rewrite filter_cons. destruct (decide (y = x)) as [->|]; [|done].
  simpl. destruct (filter (λ y, y = x) l) as [|z l'] eqn:E; [simpl; lia|].
  exfalso. assert (z ∈ filter (λ y, y = x) l) as Hz.
  { rewrite E. apply list_elem_of_here. }
  apply list_elem_of_filter in Hz as [-> Hz]. done.
Qed.

Lemma elem_count_ge {A : Type} `{EqDecision A} (x : A) (l : list A) :
  x ∈ l → (1 ≤ length (filter (λ y, y = x) l))%nat.
Proof.
  intros Hx. assert (x ∈ filter (λ y, y = x) l) as Hin.
  { by apply list_elem_of_filter. }
  destruct (filter (λ y, y = x) l); [by apply elem_of_nil in Hin|simpl; lia].
Qed.

(** C4. From the loading of the module on, whatever calls of the getters the
    requests make and in whatever order, well typed as they are: no model is
    constructed more than once, a model some call asked for is constructed
    exactly once, every call returns a promise, and all the calls of one
    getter (for [getTTS], with one language) return the same promise, the
    one of that single construction. *)
Theorem getters_construct_once (gs : list Getter) (ps : list PromiseId) (w' : World) :
  Forall (λ g, well_typed g = true) gs →
  run_getters gs initial_world = (ps, w') →
  (∀ m, (constructions m w' ≤ 1)%nat) ∧
  (∀ g, g ∈ gs → constructions (model_of g) w' = 1%nat) ∧
  length ps = length gs ∧
  (∀ i j g p q, gs !! i = Some g → gs !! j = Some g →
                ps !! i = Some p → ps !! j = Some q →
                p = q ∧ constructed w' !! p = Some (model_of g)).
Proof.
  intros Hwt Hrun.
  destruct (run_getters_spec gs _ _ _ registry_ok_initial Hwt Hrun)
    as ([Hnd _] & _ & Hlen & Hall).
  split_and!.
  - intros m. by apply NoDup_count_le.
  - intros g [i Hi]%list_elem_of_lookup.
    destruct (lookup_lt_is_Some_2 ps i) as [p Hp].
    { rewrite Hlen. by eapply lookup_lt_Some. }
    pose proof (Hall _ _ _ Hi Hp) as Hm.
    apply Nat.le_antisymm; [by apply NoDup_count_le|].
    apply elem_count_ge. by eapply list_elem_of_lookup_2.
  - exact Hlen.
  - intros i j g p q Hi Hj Hp Hq.
    pose proof (Hall _ _ _ Hi Hp) as Hmp.
    pose proof (Hall _ _ _ Hj Hq) as Hmq.
    split; [|done]. by eapply NoDup_lookup.
Qed.

Lemma getters_construct_once_witness :
  let gs := [GetASR; GetTTS "es"; GetASR; GetTranslator; GetTTS "es"; GetTTS "fr"] in
  (run_getters gs initial_world).1 = [0; 1; 0; 2; 1; 3]%nat ∧
  ∀ m, (constructions m (run_getters gs initial_world).2 ≤ 1)%nat.
Proof.
  intros gs. split; [vm_compute; reflexivity|].
  eapply (getters_construct_once gs (run_getters gs initial_world).1).
  - repeat (constructor; [vm_compute; reflexivity|]). constructor.
  - vm_compute. reflexivity.
Defined.

(** ** Rules for runs *)

Section Rules.
Context {A B : Type}.
Implicit Types (Q : Completion A → World → Prop) (w : World).

Lemma outcome_elim (m : Js A) Q w c w' :
  outcome m Q w → m w = (c, w') → Q c w'.
Proof. unfold outcome. intros H E. by rewrite E in H. Qed.

Lemma outcome_intro (m : Js A) Q w :
  (∀ c w', m w = (c, w') → Q c w') → outcome m Q w.
Proof. intros H. apply H. by destruct (m w). Qed.

Lemma outcome_mono (m : Js A) Q Q' w :
  outcome m Q w → (∀ c w', Q c w' → Q' c w') → outcome m Q' w.
Proof. unfold outcome. eauto. Qed.

Lemma outcome_ret (a : A) Q w : Q (Normal a) w → outcome (ret a) Q w.
Proof. done. Qed.

Lemma outcome_throw (e : JsError) Q w :
  Q (Throw e) (emit (Raised e) w) → outcome (throw e) Q w.
Proof. done. Qed.

Lemma outcome_await (r : Settled A) Q w :
  match r with
  | Fulfilled a => Q (Normal a) w
  | Rejected e => Q (Throw e) (emit (Raised e) w)
  end → outcome (await r) Q w.
Proof. by destruct r. Qed.

Lemma outcome_call (op : Op) (r : Settled A) Q w :
  match r with
  | Fulfilled a => Q (Normal a) (emit (Call op) w)
  | Rejected e => Q (Throw e) (emit (Raised e) (emit (Call op) w))
  end → outcome (call op r) Q w.
Proof. by destruct r. Qed.

Lemma outcome_lift (f : World → A * World) Q w :
  (∀ a w1, f w = (a, w1) → Q (Normal a) w1) → outcome (lift f) Q w.
Proof.
  intros H. unfold outcome, lift. destruct (f w) as [a w1] eqn:E. by apply H.
Qed.

Lemma outcome_bind (m : Js B) (k : B → Js A) Q w :
  outcome m (λ c w1, match c with
                     | Normal b => outcome (k b) Q w1
                     | Throw e => Q (Throw e) w1
                     end) w →
  outcome (bind m k) Q w.
Proof. unfold outcome, bind. by destruct (m w) as [[b|e] w1]. Qed.

Lemma outcome_try_finally (body : Js A) (cleanup : Js unit) Q w :
  outcome body (λ c w1,
    outcome cleanup (λ c2 w2, match c2 with
                              | Normal _ => Q c w2
                              | Throw e => Q (Throw e) w2
                              end) w1) w →
  outcome (try_finally body cleanup) Q w.
Proof.
  unfold outcome, try_finally. destruct (body w) as [c w1]. simpl.
  by destruct (cleanup w1) as [[[]|e] w2].
Qed.

Lemma outcome_try_catch (body : Js A) (handler : JsError → Js A) Q w :
  outcome body (λ c w1, match c with
                        | Normal a => Q (Normal a) w1
                        | Throw e => outcome (handler e) Q w1
                        end) w →
  outcome (try_catch body handler) Q w.
Proof. unfold outcome, try_catch. by destruct (body w) as [[a|e] w1]. Qed.

End Rules.

(** One step of a run: the rule of the construct at the head of the program,
    and a case for each way an awaited call settles. *)
Ltac js_step :=
  lazymatch goal with
  | |- outcome (bind _ _) _ _ => apply outcome_bind
  | |- outcome (ret _) _ _ => apply outcome_ret
  | |- outcome (throw _) _ _ => apply outcome_throw
  | |- outcome (call _ ?r) _ _ =>
      let E := fresh "Ecall" in
      apply outcome_call; destruct r eqn:E
  | |- outcome (await ?r) _ _ =>
      let E := fresh "Eawait" in
      apply outcome_await; destruct r eqn:E
  | |- outcome (lift _) _ _ =>
      let p := fresh "p" in
      let w := fresh "w" in
      let E := fresh "Eget" in
      apply outcome_lift; intros p w E
  | |- outcome (if ?b then _ else _) _ _ =>
      let E := fresh "Eif" in
      destruct b eqn:E
  | |- outcome (try_finally _ _) _ _ => apply outcome_try_finally
  | |- outcome (try_catch _ _) _ _ => apply outcome_try_catch
  end; cbv beta iota zeta.

Ltac js_run := repeat js_step.

(** The fields of a state after an event or an update of another field. *)
Ltac js_fields :=
  cbn [emit set_trace set_dirs set_console set_asrPipelinePromise
       set_translationPipelinePromise set_ttsPipelines set_constructed
       trace dirs console asrPipelinePromise translationPipelinePromise
       ttsPipelines constructed] in *.

Lemma getASR_frame (w w1 : World) (p : PromiseId) :
  getASR w = (p, w1) →
  dirs w1 = dirs w ∧ trace w1 = trace w ∧ console w1 = console w.
Proof. apply (run_getter_frame GetASR). Qed.

Lemma getTranslator_frame (w w1 : World) (p : PromiseId) :
  getTranslator w = (p, w1) →
  dirs w1 = dirs w ∧ trace w1 = trace w ∧ console w1 = console w.
Proof. apply (run_getter_frame GetTranslator). Qed.

Lemma getTTS_frame (language : string) (w w1 : World) (p : PromiseId) :
  getTTS language w = (p, w1) →
  dirs w1 = dirs w ∧ trace w1 = trace w ∧ console w1 = console w.
Proof. apply (run_getter_frame (GetTTS language)). Qed.

(** What the getters met on a path leave unchanged, as rewriting rules. *)
Ltac js_frames :=
  repeat match goal with
  | E : getASR _ = (_, ?w1) |- _ =>
      lazymatch goal with
      | _ : dirs w1 = _ |- _ => fail
      | _ => destruct (getASR_frame _ _ _ E) as (? & ? & ?)
      end
  | E : getTranslator _ = (_, ?w1) |- _ =>
      lazymatch goal with
      | _ : dirs w1 = _ |- _ => fail
      | _ => destruct (getTranslator_frame _ _ _ E) as (? & ? & ?)
      end
  | E : getTTS _ _ = (_, ?w1) |- _ =>
      lazymatch goal with
      | _ : dirs w1 = _ |- _ => fail
      | _ => destruct (getTTS_frame _ _ _ _ E) as (? & ? & ?)
      end
  end;
  js_fields;
  repeat match goal with
  | H : dirs ?w1 = _ |- _ => is_var w1; rewrite !H in *; clear H
  | H : trace ?w1 = _ |- _ => is_var w1; rewrite !H in *; clear H
  | H : console ?w1 = _ |- _ => is_var w1; rewrite !H in *; clear H
  end.

(** The inner block leaves the disk and the console alone. *)
Lemma process_frame env audioFile targetLanguage workspace w :
  outcome (process env audioFile targetLanguage workspace)
          (λ _ w', dirs w' = dirs w ∧ console w' = console w) w.
Proof.
  unfold process. cbv zeta. js_run; js_frames; done.
Qed.

(** ** The exits of the handler *)

(** The handler always completes with a response, by one of its exits. *)
Lemma POST_cases env request w c w' :
  POST env request w = (c, w') →
  ∃ r, c = Normal r ∧ Handled env request w r w'.
Proof.
  unfold POST, try_catch, bind at 1, await.
  destruct (formData request) as [fd|e] eqn:Eform.
  2: { intros [= <- <-]. eexists. split; [done|]. by apply handled_no_form. }
  unfold ret at 1.
  destruct (FormData_get "audio" fd) as [[s|f]|] eqn:Eaudio.
  1, 3: intros [= <- <-]; eexists; (split; [done|]);
        eapply handled_no_audio; [done|]; congruence.
  destruct (nullish (FormData_get "targetLanguage" fd) (EntryString "es"))
    as [l|f'] eqn:Elang.
  2: { intros [= <- <-]. eexists. split; [done|].
       eapply handled_no_language; [done..|]. congruence. }
  destruct (isSupportedLanguage l) eqn:Esup.
  2: { intros [= <- <-]. eexists. split; [done|].
       eapply handled_no_language; [done..|]. congruence. }
  assert (passes_validation request f l) as Hval by (by exists fd).
  unfold bind, do_mkdtemp, bind, call, await, lift, try_finally, do_rm, bind,
    call, await, lift.
  fold (workspace_prefix env).
  destruct (mkdtemp env (workspace_prefix env)) as [ws|e] eqn:Emk; simpl.
  2: { intros [= <- <-]. eexists. split; [done|]. by eapply handled_no_workspace. }
  fold (created env ws w).
  destruct (process env f l ws (created env ws w)) as [c2 w2] eqn:Eproc.
  destruct (rm env ws) as [[]|e] eqn:Erm; simpl.
  - destruct c2 as [r|e]; intros [= <- <-]; eexists; (split; [done|]).
    + by eapply handled_done.
    + by eapply handled_failed.
  - intros [= <- <-]. eexists. split; [done|]. by eapply handled_not_removed.
Qed.

Lemma POST_validated env request f l w :
  passes_validation request f l →
  POST env request w =
  try_catch
    (let* workspace := do_mkdtemp env (workspace_prefix env) in
     try_finally (process env f l workspace) (do_rm env workspace))
    (λ error, let* _ := console_error error in ret FAILED) w.
Proof.
  intros (fd & Hform & Haudio & Hlang & Hsup).
  unfold POST, try_catch, bind at 1, await. rewrite Hform. unfold ret at 1.
  rewrite Haudio, Hlang, Hsup. reflexivity.
Qed.

(** Conversely, each exit is taken under its conditions. *)
Lemma POST_handled env request w r w' :
  Handled env request w r w' → POST env request w = (Normal r, w').
Proof.
  intros H. destruct H as
    [e Hform|fd Hform Haudio|fd f Hform Haudio Hlang|f l e Hval Hmk
    |f l ws r w2 Hval Hmk Hproc Hrm|f l ws e w2 Hval Hmk Hproc Hrm
    |f l ws c e w2 Hval Hmk Hproc Hrm].
  - unfold POST, try_catch, bind at 1, await. by rewrite Hform.
  - unfold POST, try_catch, bind at 1, await. rewrite Hform. unfold ret at 1.
    destruct (FormData_get "audio" fd) as [[s|f]|] eqn:E; try done.
    by destruct (Haudio f).
  - unfold POST, try_catch, bind at 1, await. rewrite Hform. unfold ret at 1.
    rewrite Haudio.
    destruct (nullish _ _) as [l|f'] eqn:E; [|done].
    by rewrite (Hlang l eq_refl).
  - rewrite (POST_validated _ _ _ _ _ Hval).
    unfold try_catch, bind, do_mkdtemp, bind, call, await. by rewrite Hmk.
  - rewrite (POST_validated _ _ _ _ _ Hval).
    unfold try_catch, bind, do_mkdtemp, bind, call, await, lift, try_finally,
      do_rm, bind, call, await, lift.
    rewrite Hmk. simpl. fold (created env ws w). rewrite Hproc. simpl.
    by rewrite Hrm.
  - rewrite (POST_validated _ _ _ _ _ Hval).
    unfold try_catch, bind, do_mkdtemp, bind, call, await, lift, try_finally,
      do_rm, bind, call, await, lift.
    rewrite Hmk. simpl. fold (created env ws w). rewrite Hproc. simpl.
    by rewrite Hrm.
  - rewrite (POST_validated _ _ _ _ _ Hval).
    unfold try_catch, bind, do_mkdtemp, bind, call, await, lift, try_finally,
      do_rm, bind, call, await, lift.
    rewrite Hmk. simpl. fold (created env ws w). rewrite Hproc. simpl.
    by rewrite Hrm.
Qed.

(** ** Request validation *)

(** A target language that is given and is not supported has the request
    rejected with status 400, the state being left as it was. *)
Lemma unsupported_target_rejected env request w fd v :
  formData request = Fulfilled fd →
  FormData_get "targetLanguage" fd = Some v →
  (∀ l, v = EntryString l → isSupportedLanguage l = false) →
  ∃ r, POST env request w = (Normal r, w) ∧ status r = 400%Z ∧
       (r = MISSING_AUDIO ∨ r = UNSUPPORTED_LANGUAGE).
Proof.
  intros Hform Hv Hbad.
  destruct (FormData_get "audio" fd) as [[s|f]|] eqn:Eaudio.
  - exists MISSING_AUDIO. split_and!; [|done|by left].
    apply POST_handled. eapply handled_no_audio; [done|]. congruence.
  - exists UNSUPPORTED_LANGUAGE. split_and!; [|done|by right].
    apply POST_handled. eapply handled_no_language; [done..|].
    rewrite Hv. simpl. intros l ->. by apply Hbad.
  - exists MISSING_AUDIO. split_and!; [|done|by left].
    apply POST_handled. eapply handled_no_audio; [done|]. congruence.
Qed.

(** C1 (amended). A target language field that is present and holds anything
    but a supported code, a file included, has the request rejected with
    status 400 and the state left as it was: no directory is created and no
    pipeline is constructed or called.  A request without the field is not
    rejected for it: it is handled as a request for [es]. *)
Theorem target_language_validation env request w fd :
  formData request = Fulfilled fd →
  (∀ v, FormData_get "targetLanguage" fd = Some v →
        (∀ l, v = EntryString l → isSupportedLanguage l = false) →
        ∃ r, POST env request w = (Normal r, w) ∧ status r = 400%Z ∧
             (r = MISSING_AUDIO ∨ r = UNSUPPORTED_LANGUAGE)) ∧
  (FormData_get "targetLanguage" fd = None →
   POST env request w =
   POST env (mkRequest (Fulfilled (("targetLanguage", EntryString "es") :: fd))) w).
Proof.
  intros Hform. split.
  - intros v Hv Hbad. by eapply unsupported_target_rejected.
  - intros Hnone.
    unfold POST, try_catch, bind at 1 3, await. rewrite Hform. simpl.
    by rewrite Hnone.
Qed.

Lemma target_language_validation_witness :
  (∃ r, POST Sample.calm (Sample.request (Some (EntryString "zz"))) initial_world
        = (Normal r, initial_world) ∧ status r = 400%Z ∧
        (r = MISSING_AUDIO ∨ r = UNSUPPORTED_LANGUAGE)) ∧
  POST Sample.calm (Sample.request None) initial_world
  = POST Sample.calm
      (mkRequest (Fulfilled (("targetLanguage", EntryString "es") :: Sample.form None)))
      initial_world.
Proof.
  split.
  - apply (proj1 (target_language_validation Sample.calm
                    (Sample.request (Some (EntryString "zz"))) initial_world
                    (Sample.form (Some (EntryString "zz"))) eq_refl)
                 (EntryString "zz")).
    + reflexivity.
    + intros l [= <-]. vm_compute. reflexivity.
  - exact (proj2 (target_language_validation Sample.calm (Sample.request None)
                    initial_world (Sample.form None) eq_refl) eq_refl).
Defined.

(** C1, as stated, fails for an absent field: the request below has none,
    yet it is answered with status 200 after a directory was created and
    the translator was called with target [es]. *)
Lemma absent_target_language_is_processed :
  let run := POST Sample.calm (Sample.request None) initial_world in
  FormData_get "targetLanguage" (Sample.form None) = None ∧
  run.1 = Normal (success [Byte.xff; Byte.xfb]) ∧
  Call (OpMkdtemp "/tmp/audio-transform-") ∈ trace run.2 ∧
  Call (OpTranslate "good morning" "en" "es") ∈ trace run.2 ∧
  ¬ (∃ r, run = (Normal r, initial_world) ∧ status r = 400%Z).
Proof.
  intros run. split_and!.
  - reflexivity.
  - vm_compute. reflexivity.
  - vm_compute. apply list_elem_of_here.
  - vm_compute. do 6 apply list_elem_of_further. apply list_elem_of_here.
  - intros (r & Hrun & Hstatus).
    assert (run.1 = Normal r) as H1 by (by rewrite Hrun).
    vm_compute in H1. injection H1 as <-. vm_compute in Hstatus. discriminate.
Qed.

(** ** The events of a run *)

Lemma quiet_app (l r : list Event) : quiet (l ++ r) = quiet l && quiet r.
Proof. apply forallb_app. Qed.

Lemma keeps_workspace_app (l r : list Event) :
  keeps_workspace (l ++ r) = keeps_workspace l && keeps_workspace r.
Proof. apply forallb_app. Qed.

Lemma stages_of_app (l r : list Event) :
  stages_of (l ++ r) = (stages_of l ++ stages_of r)%list.
Proof. apply omap_app. Qed.




(** Closes a path of the inner block: the events are those listed after the
    trace at entry, and the checks on them compute. *)
Ltac js_trace :=
  js_frames;
  rewrite <- ?(assoc_L (++)); simpl;
  eexists; split; [reflexivity|].

(** The events of the inner block: it calls neither [mkdtemp] nor [rm]; the
    stages it enters are an initial part of the order; when it returns, no
    exception was raised and all the stages were entered; when it throws,
    the exception is the last event and the only one. *)
Lemma process_trace env audioFile targetLanguage workspace w :
  outcome (process env audioFile targetLanguage workspace)
    (λ c w', ∃ evs, trace w' = (trace w ++ evs)%list ∧
       keeps_workspace evs = true ∧
       stages_of evs `prefix_of` PIPELINE_ORDER ∧
       match c with
       | Normal r =>
           quiet evs = true ∧ stages_of evs = PIPELINE_ORDER ∧
           ∃ output, r = success output
       | Throw e => ∃ pre, evs = (pre ++ [Raised e])%list ∧ quiet pre = true
       end) w.
Proof.
  unfold process. cbv zeta.
  js_run; js_trace;
    (split; [reflexivity|]);
    (split; [by eexists|]);
    try (split; [reflexivity|]; split; [reflexivity|]; by eexists);
    lazymatch goal with
    | |- ∃ pre, ?l = _ ∧ _ => exists (removelast l); by split
    end.
Qed.


(** The events of a request that got its scratch directory: the call of
    [mkdtemp], the events of the inner block, the call of [rm] and, when the
    removal is rejected, its exception. *)
Lemma POST_events env request w c w' f l ws :
  passes_validation request f l →
  mkdtemp env (workspace_prefix env) = Fulfilled ws →
  POST env request w = (c, w') →
  ∃ c2 w2 evs,
    process env f l ws (created env ws w) = (c2, w2) ∧
    trace w2 = (trace w ++ Call (OpMkdtemp (workspace_prefix env)) :: evs)%list ∧
    trace w' = (trace w2 ++ Call (OpRm ws) ::
                 match rm env ws with
                 | Fulfilled _ => []
                 | Rejected e => [Raised e]
                 end)%list ∧
    dirs w' = match rm env ws with
              | Fulfilled _ => ({[ws]} ∪ dirs w) ∖ {[ws]}
              | Rejected _ => {[ws]} ∪ dirs w
              end ∧
    c = Normal match rm env ws, c2 with
               | Fulfilled _, Normal r => r
               | _, _ => FAILED
               end ∧
    console w' = match rm env ws, c2 with
                 | Fulfilled _, Normal _ => console w
                 | Fulfilled _, Throw e => (console w ++ [e])%list
                 | Rejected e, _ => (console w ++ [e])%list
                 end.
Proof.
  intros Hval Hmk Hpost.
  rewrite (POST_validated _ _ _ _ _ Hval) in Hpost.
  unfold try_catch, bind, do_mkdtemp, bind, call, await, lift, try_finally,
    do_rm, bind, call, await, lift in Hpost.
  rewrite Hmk in Hpost. simpl in Hpost. fold (created env ws w) in Hpost.
  destruct (process env f l ws (created env ws w)) as [c2 w2] eqn:Hproc.
  destruct (outcome_elim _ _ _ _ _ (process_trace _ _ _ _ _) Hproc)
    as (evs & Htrace & _).
  destruct (outcome_elim _ _ _ _ _ (process_frame _ _ _ _ _) Hproc)
    as (Hdirs & Hconsole).
  exists c2, w2, evs. split; [done|].
  split. { rewrite Htrace. simpl. by rewrite <- (assoc_L (++)). }
  simpl in Hdirs, Hconsole.
  destruct (rm env ws) as [[]|e]; simpl in Hpost.
  - destruct c2; injection Hpost as <- <-; simpl; by rewrite Hdirs, Hconsole.
  - injection Hpost as <- <-. simpl. rewrite Hdirs, Hconsole.
    by rewrite <- (assoc_L (++)).
Qed.

(** ** The order of the stages *)



(** ** The scratch directory *)

(** C2 (amended). When a request has got its scratch directory, then however
    the inner block ends, by returning the response or by an exception of
    any stage, [rm] is called on that directory, once, after everything the
    block did, and nothing follows but the exception of a rejected removal;
    and when the removal succeeds the directory does not exist once the
    handler has returned. *)
Theorem workspace_cleanup env request w c w' f l ws :
  passes_validation request f l →
  mkdtemp env (workspace_prefix env) = Fulfilled ws →
  POST env request w = (c, w') →
  (∃ evs fin,
     trace w' = (trace w ++ Call (OpMkdtemp (workspace_prefix env))
                   :: evs ++ Call (OpRm ws) :: fin)%list ∧
     keeps_workspace evs = true ∧
     match rm env ws with
     | Fulfilled _ => fin = []
     | Rejected e => fin = [Raised e]
     end) ∧
  (rm env ws = Fulfilled tt → ws ∉ dirs w').
Proof.
  intros Hval Hmk Hpost.
  destruct (POST_events _ _ _ _ _ _ _ _ Hval Hmk Hpost)
    as (c2 & w2 & evs & Hproc & Htrace2 & Htrace & Hdirs & _).
  destruct (outcome_elim _ _ _ _ _ (process_trace _ _ _ _ _) Hproc)
    as (evs' & Htrace' & Hkeep & _).
  assert (evs' = evs) as ->.
  { rewrite Htrace2 in Htrace'. simpl in Htrace'.
    rewrite <- (assoc_L (++)) in Htrace'.
    apply (inj (app (trace w))) in Htrace'. simpl in Htrace'. congruence. }
  split.
  - exists evs, (match rm env ws with Fulfilled _ => [] | Rejected e => [Raised e] end).
    split_and!; [|done|by destruct (rm env ws)].
    rewrite Htrace, Htrace2. by rewrite <- (assoc_L (++)).
  - intros Hrm. rewrite Hrm in Hdirs. rewrite Hdirs.
    apply not_elem_of_difference. right. by apply elem_of_singleton.
Qed.

Lemma workspace_cleanup_witness :
  let run := POST Sample.calm (Sample.request None) initial_world in
  "/tmp/audio-transform-Ab3xZ9" ∉ dirs run.2.
Proof.
  intros run.
  refine (proj2 (workspace_cleanup Sample.calm (Sample.request None) initial_world
                   run.1 run.2 Sample.clip "es" "/tmp/audio-transform-Ab3xZ9"
                   _ _ _) _).
  - exists (Sample.form None). repeat split; vm_compute; reflexivity.
  - reflexivity.
  - vm_compute. reflexivity.
  - reflexivity.
Defined.

(** C2, as stated, fails on the exit where the removal itself is rejected:
    the directory that [mkdtemp] created still exists when the handler has
    returned. *)
Lemma workspace_left_when_rm_rejected :
  let env := Sample.with_rm (Rejected Sample.boom) Sample.calm in
  let run := POST env (Sample.request None) initial_world in
  mkdtemp env (workspace_prefix env) = Fulfilled "/tmp/audio-transform-Ab3xZ9" ∧
  Call (OpRm "/tmp/audio-transform-Ab3xZ9") ∈ trace run.2 ∧
  run.1 = Normal FAILED ∧
  "/tmp/audio-transform-Ab3xZ9" ∈ dirs run.2.
Proof.
  intros env run. split_and!.
  - reflexivity.
  - vm_compute. do 13 apply list_elem_of_further. apply list_elem_of_here.
  - vm_compute. reflexivity.
  - assert (passes_validation (Sample.request None) Sample.clip "es") as Hval.
    { exists (Sample.form None). repeat split; vm_compute; reflexivity. }
    destruct (POST_events env (Sample.request None) initial_world run.1 run.2
                Sample.clip "es" "/tmp/audio-transform-Ab3xZ9" Hval eq_refl
                (surjective_pairing _))
      as (_ & _ & _ & _ & _ & _ & Hdirs & _).
    rewrite Hdirs. simpl. apply elem_of_union. left. by apply elem_of_singleton.
Qed.

(** C3 (amended). When the inner block has returned the response with the
    mixed audio and the removal of the directory is then rejected, the
    rejection is printed by [console.error] and takes the place of the
    response: the handler answers with the generic failure, status 500. *)
Theorem cleanup_failure_replaces_response env request w c w' f l ws r w2 e :
  passes_validation request f l →
  mkdtemp env (workspace_prefix env) = Fulfilled ws →
  process env f l ws (created env ws w) = (Normal r, w2) →
  rm env ws = Rejected e →
  POST env request w = (c, w') →
  (∃ output, r = success output) ∧
  c = Normal FAILED ∧ status FAILED = 500%Z ∧
  console w' = (console w ++ [e])%list.
Proof.
  intros Hval Hmk Hproc Hrm Hpost.
  destruct (outcome_elim _ _ _ _ _ (process_trace _ _ _ _ _) Hproc)
    as (evs' & _ & _ & _ & _ & _ & Hout).
  destruct (POST_events _ _ _ _ _ _ _ _ Hval Hmk Hpost)
    as (c2 & w3 & evs & Hproc' & _ & _ & _ & Hc & Hconsole).
  rewrite Hrm in Hc, Hconsole. by split_and!.
Qed.

Lemma cleanup_failure_replaces_response_witness :
  let env := Sample.with_rm (Rejected Sample.boom) Sample.calm in
  let run := POST env (Sample.request None) initial_world in
  run.1 = Normal FAILED ∧ console run.2 = [Sample.boom].
Proof.
  intros env run.
  pose (ws := "/tmp/audio-transform-Ab3xZ9").
  pose (inner := process env Sample.clip "es" ws (created env ws initial_world)).
  assert (passes_validation (Sample.request None) Sample.clip "es") as Hval.
  { exists (Sample.form None). repeat split; vm_compute; reflexivity. }
  destruct (cleanup_failure_replaces_response env (Sample.request None)
              initial_world run.1 run.2 Sample.clip "es" ws
              (success [Byte.xff; Byte.xfb]) inner.2 Sample.boom Hval eq_refl)
    as (_ & H1 & _ & H2).
  - vm_compute. reflexivity.
  - reflexivity.
  - vm_compute. reflexivity.
  - split; [exact H1|exact H2].
Defined.

(** C3, as stated, fails: below every stage succeeds and the inner block
    returns the mixed audio, the removal is rejected, and the handler
    answers with the failure and not with that response. *)
Lemma cleanup_failure_is_escalated :
  let env := Sample.with_rm (Rejected Sample.boom) Sample.calm in
  let ws := "/tmp/audio-transform-Ab3xZ9" in
  (process env Sample.clip "es" ws (created env ws initial_world)).1
    = Normal (success [Byte.xff; Byte.xfb]) ∧
  rm env ws = Rejected Sample.boom ∧
  (POST env (Sample.request None) initial_world).1 = Normal FAILED ∧
  (POST env (Sample.request None) initial_world).1
    ≠ Normal (success [Byte.xff; Byte.xfb]).
Proof.
  intros env ws. split_and!; try (vm_compute; reflexivity).
  vm_compute. discriminate.
Qed.

(** ** Responses *)

Lemma quiet_not_raised (evs : list Event) (e : JsError) :
  quiet evs = true → Raised e ∉ evs.
Proof.
  unfold quiet. rewrite forallb_forall. intros H Hin.
  apply list_elem_of_In in Hin. by apply H in Hin.
Qed.

Lemma passes_validation_audio request fd :
  formData request = Fulfilled fd →
  (∀ f, FormData_get "audio" fd ≠ Some (EntryFile f)) →
  ∀ f l, ¬ passes_validation request f l.
Proof.
  intros Hform Haudio f l (fd' & Hform' & Haudio' & _).
  rewrite Hform in Hform'. injection Hform' as <-. by apply (Haudio f).
Qed.

Lemma passes_validation_language request fd :
  formData request = Fulfilled fd →
  (∀ l, nullish (FormData_get "targetLanguage" fd) (EntryString "es") = EntryString l →
        isSupportedLanguage l = false) →
  ∀ f l, ¬ passes_validation request f l.
Proof.
  intros Hform Hlang f l (fd' & Hform' & _ & Hlang' & Hsup).
  rewrite Hform in Hform'. injection Hform' as <-.
  rewrite (Hlang l Hlang') in Hsup. discriminate.
Qed.

(** C7 (amended). The handler answers in one of three ways.  With one of
    the two validation messages, status 400, before anything was done: the
    state is unchanged and the request does not pass validation.  With the
    generic failure, status 500 and the fixed text [Failed to process audio],
    the same whatever was raised: then one error is printed by
    [console.error], the last exception raised in the run, which is the
    exception of the stage when the removal of the directory succeeds and
    the rejection of the removal when it does not; an exception raised
    before the last one is printed nowhere.  Or with the mixed audio, no
    exception having been raised and nothing printed.  So an exception
    raised once validation has passed always gives the generic failure. *)
Theorem failure_responses env request w c w' :
  POST env request w = (c, w') →
  ∃ r evs, c = Normal r ∧ trace w' = (trace w ++ evs)%list ∧
    (((r = MISSING_AUDIO ∨ r = UNSUPPORTED_LANGUAGE) ∧ status r = 400%Z ∧
      w' = w ∧ ∀ f l, ¬ passes_validation request f l)
     ∨ (r = FAILED ∧
        ∃ pre e post,
          evs = (pre ++ Raised e :: post)%list ∧ quiet post = true ∧
          console w' = (console w ++ [e])%list)
     ∨ (∃ output, r = success output ∧ quiet evs = true ∧
                  console w' = console w)) ∧
    (∀ f l e, passes_validation request f l → Raised e ∈ evs → r = FAILED) ∧
    (∀ f l ws e1 w2,
       passes_validation request f l →
       mkdtemp env (workspace_prefix env) = Fulfilled ws →
       process env f l ws (created env ws w) = (Throw e1, w2) →
       Raised e1 ∈ evs ∧
       console w' = (console w ++ [match rm env ws with
                                   | Fulfilled _ => e1
                                   | Rejected e2 => e2
                                   end])%list) ∧
    body FAILED = BodyText "Failed to process audio" ∧ status FAILED = 500%Z.
Proof.
  intros Hpost.
  destruct (POST_cases _ _ _ _ _ Hpost) as (r & -> & Hcase).
  cut (∃ evs, trace w' = (trace w ++ evs)%list ∧
    (((r = MISSING_AUDIO ∨ r = UNSUPPORTED_LANGUAGE) ∧ status r = 400%Z ∧
      w' = w ∧ ∀ f l, ¬ passes_validation request f l)
     ∨ (r = FAILED ∧
        ∃ pre e post,
          evs = (pre ++ Raised e :: post)%list ∧ quiet post = true ∧
          console w' = (console w ++ [e])%list)
     ∨ (∃ output, r = success output ∧ quiet evs = true ∧
                  console w' = console w))).
  { intros (evs & Htrace & Hways). exists r, evs.
    split_and!; [done..| | |done|done].
    - intros f l e Hval Hin.
      destruct Hways as [(_ & _ & _ & Hno)|[(-> & _)|(out & _ & Hquiet & _)]].
      + by destruct (Hno f l).
      + done.
      + by destruct (quiet_not_raised _ e Hquiet).
    - intros f l ws e1 w2 Hval Hmk Hproc.
      destruct (POST_events _ _ _ _ _ _ _ _ Hval Hmk Hpost)
        as (c2 & w3 & evs' & Hproc' & Htr2 & Htr' & _ & _ & Hconsole).
      rewrite Hproc in Hproc'. injection Hproc' as <- <-.
      destruct (outcome_elim _ _ _ _ _ (process_trace _ _ _ _ _) Hproc)
        as (evs2 & Htrace2 & _ & _ & pre & -> & _).
      split.
      + rewrite Htr' in Htrace. rewrite Htrace2 in Htrace. simpl in Htrace.
        rewrite <- !(assoc_L (++)) in Htrace. apply app_inv_head in Htrace.
        rewrite <- Htrace, !elem_of_app. right; right; left.
        apply list_elem_of_here.
      + rewrite Hconsole. by destruct (rm env ws) as [[]|e2]. }
  destruct Hcase as
    [e Hform|fd Hform Haudio|fd f Hform Haudio Hlang|f l e Hval Hmk
    |f l ws r w2 Hval Hmk Hproc Hrm|f l ws e w2 Hval Hmk Hproc Hrm
    |f l ws c e w2 Hval Hmk Hproc Hrm].
  - exists [Raised e]. split; [done|]. right; left. split; [done|].
    by exists [], e, [].
  - exists []. split; [by rewrite app_nil_r|]. left. split_and!; try done.
    + by left.
    + by eapply passes_validation_audio.
  - exists []. split; [by rewrite app_nil_r|]. left. split_and!; try done.
    + by right.
    + by eapply passes_validation_language.
  - exists [Call (OpMkdtemp (workspace_prefix env)); Raised e].
    split; [simpl; by rewrite <- (assoc_L (++))|]. right; left.
    split; [done|].
    by exists [Call (OpMkdtemp (workspace_prefix env))], e, [].
  - destruct (outcome_elim _ _ _ _ _ (process_trace _ _ _ _ _) Hproc)
      as (evs & Htrace & _ & _ & Hquiet & _ & out & ->).
    destruct (outcome_elim _ _ _ _ _ (process_frame _ _ _ _ _) Hproc)
      as (_ & Hconsole).
    exists (Call (OpMkdtemp (workspace_prefix env)) :: evs ++ [Call (OpRm ws)])%list.
    split. { simpl. rewrite Htrace. simpl. by rewrite <- !(assoc_L (++)). }
    right; right. exists out. split_and!; [done| |done].
    simpl. by rewrite quiet_app, Hquiet.
  - destruct (outcome_elim _ _ _ _ _ (process_trace _ _ _ _ _) Hproc)
      as (evs & Htrace & _ & _ & pre & -> & _).
    destruct (outcome_elim _ _ _ _ _ (process_frame _ _ _ _ _) Hproc)
      as (_ & Hconsole).
    exists (Call (OpMkdtemp (workspace_prefix env))
              :: (pre ++ [Raised e]) ++ [Call (OpRm ws)])%list.
    split. { simpl. rewrite Htrace. simpl. by rewrite <- !(assoc_L (++)). }
    right; left. split; [done|].
    exists (Call (OpMkdtemp (workspace_prefix env)) :: pre), e, [Call (OpRm ws)].
    split_and!.
    + simpl. by rewrite <- (assoc_L (++)).
    + done.
    + simpl. by rewrite Hconsole.
  - destruct (outcome_elim _ _ _ _ _ (process_trace _ _ _ _ _) Hproc)
      as (evs & Htrace & _).
    destruct (outcome_elim _ _ _ _ _ (process_frame _ _ _ _ _) Hproc)
      as (_ & Hconsole).
    exists (Call (OpMkdtemp (workspace_prefix env))
              :: evs ++ [Call (OpRm ws); Raised e])%list.
    split. { simpl. rewrite Htrace. simpl. by rewrite <- !(assoc_L (++)). }
    right; left. split; [done|].
    exists (Call (OpMkdtemp (workspace_prefix env)) :: evs ++ [Call (OpRm ws)])%list,
      e, [].
    split_and!.
    + simpl. by rewrite <- (assoc_L (++)).
    + done.
    + simpl. by rewrite Hconsole.
Qed.

Lemma failure_responses_witness :
  let env := Sample.with_mixTracks (Rejected Sample.boom) Sample.calm in
  let run := POST env (Sample.request None) initial_world in
  ∃ evs, run.1 = Normal FAILED ∧
    trace run.2 = (trace initial_world ++ evs)%list ∧
    Raised Sample.boom ∈ evs ∧
    console run.2 = [Sample.boom].
Proof.
  intros env run.
  pose (ws := "/tmp/audio-transform-Ab3xZ9").
  pose (inner := process env Sample.clip "es" ws (created env ws initial_world)).
  destruct (failure_responses env (Sample.request None) initial_world run.1 run.2)
    as (r & evs & Hr & Htrace & _ & Hfailed & Hlogged & _).
  - vm_compute. reflexivity.
  - assert (passes_validation (Sample.request None) Sample.clip "es") as Hval.
    { exists (Sample.form None). repeat split; vm_compute; reflexivity. }
    destruct (Hlogged Sample.clip "es" ws Sample.boom inner.2 Hval) as (Hin & Hconsole).
    + reflexivity.
    + vm_compute. reflexivity.
    + exists evs. rewrite Hr, (Hfailed Sample.clip "es" Sample.boom Hval Hin).
      split_and!; [reflexivity|exact Htrace|exact Hin|exact Hconsole].
Defined.

(** C7, as stated, fails when a stage throws and the removal of the
    directory is then rejected: the request below passes validation, the
    recogniser rejects, and the handler answers with the generic failure,
    but the error of the recogniser, though raised, is not written to the
    log, which holds the error of the removal only. *)
Lemma stage_error_is_not_logged :
  let env := Sample.with_rm (Rejected Sample.boom)
               (Sample.with_asr (Rejected (mkError "Unsupported audio format"))
                  Sample.calm) in
  let run := POST env (Sample.request None) initial_world in
  passes_validation (Sample.request None) Sample.clip "es" ∧
  run.1 = Normal FAILED ∧
  Raised (mkError "Unsupported audio format") ∈ trace run.2 ∧
  console run.2 = [Sample.boom] ∧
  mkError "Unsupported audio format" ∉ console run.2.
Proof.
  intros env run. split_and!.
  - exists (Sample.form None). repeat split; vm_compute; reflexivity.
  - vm_compute. reflexivity.
  - vm_compute. do 6 apply list_elem_of_further. apply list_elem_of_here.
  - vm_compute. reflexivity.
  - assert (console run.2 = [Sample.boom]) as -> by (vm_compute; reflexivity).
    intros Hin. apply list_elem_of_singleton in Hin. discriminate Hin.
Qed.

(** ** Empty results of the collaborators *)

Lemma events_unique (t evs1 evs2 : list Event) (t' : list Event) :
  t' = (t ++ evs1)%list → t' = (t ++ evs2)%list → evs1 = evs2.
Proof. intros -> H. by apply app_inv_head in H. Qed.

(** The transcript is empty exactly when the recogniser returned the empty
    string, an object whose [text] is the empty string, or an object with no
    [text]. *)
Lemma transcriptText_of_empty (r : AsrResult) :
  transcriptText_of r = "" ↔
  r = AsrString "" ∨ (∃ language, r = AsrObject (Some "") language)
  ∨ (∃ language, r = AsrObject None language).
Proof.
  split.
  - destruct r as [s|[t|] language]; simpl; intros H.
    + left. by rewrite H.
    + right; left. exists language. by rewrite H.
    + right; right. by exists language.
  - by intros [->|[[language ->]|[language ->]]].
Qed.

(** The inner block throws when the recogniser gives no text, having entered
    no stage past transcription, and when the translator gives no text,
    having entered no stage past translation. *)
Lemma process_needs_text env audioFile targetLanguage workspace w :
  outcome (process env audioFile targetLanguage workspace)
    (λ c w', ∃ evs, trace w' = (trace w ++ evs)%list ∧
       ((∀ p r, asr env p = Fulfilled r → transcriptText_of r = "") →
        (∃ e, c = Throw e) ∧
        stages_of evs `prefix_of` [Normalizing; Separating; Transcribing]) ∧
       ((∀ t s g r, translator env t s g = Fulfilled r → translatedText_of r = "") →
        (∃ e, c = Throw e) ∧
        stages_of evs `prefix_of`
          [Normalizing; Separating; Transcribing; Translating])) w.
Proof.
  unfold process. cbv zeta.
  js_run; js_trace; split; intros Hnone;
    try match goal with
        | E : asr env _ = Fulfilled ?r,
          F : negb (truthy (transcriptText_of ?r)) = false |- _ =>
            rewrite (Hnone _ _ E) in F; discriminate F
        | E : translator env _ _ _ = Fulfilled ?r,
          F : negb (truthy (translatedText_of ?r)) = false |- _ =>
            rewrite (Hnone _ _ _ _ E) in F; discriminate F
        end;
    (split; [by eexists|by eexists]).
Qed.

(** C5. For a request that passes validation: when the recogniser gives no
    text (an empty or a missing one), the handler answers with the failure,
    an exception having been raised, and no stage after transcription is
    entered; when the translator gives no text, the handler answers with
    the failure as well, and no stage after translation is entered.  In
    neither case is the mixed audio returned. *)
Theorem empty_output_fails env request w c w' f l :
  passes_validation request f l →
  POST env request w = (c, w') →
  ∃ evs, trace w' = (trace w ++ evs)%list ∧
    ((∀ p r, asr env p = Fulfilled r → transcriptText_of r = "") →
     c = Normal FAILED ∧ quiet evs = false ∧
     stages_of evs `prefix_of` [Normalizing; Separating; Transcribing]) ∧
    ((∀ t s g r, translator env t s g = Fulfilled r → translatedText_of r = "") →
     c = Normal FAILED ∧ quiet evs = false ∧
     stages_of evs `prefix_of`
       [Normalizing; Separating; Transcribing; Translating]).
Proof.
  intros Hval Hpost.
  destruct (mkdtemp env (workspace_prefix env)) as [ws|e] eqn:Hmk.
  2: { exists [Call (OpMkdtemp (workspace_prefix env)); Raised e].
       assert (POST env request w =
               (Normal FAILED,
                logged e (emit (Raised e)
                  (emit (Call (OpMkdtemp (workspace_prefix env))) w)))) as Heq.
       { apply POST_handled. by eapply handled_no_workspace. }
       rewrite Heq in Hpost. injection Hpost as <- <-.
       split; [simpl; by rewrite <- (assoc_L (++))|].
       split; intros _; (split_and!; [done|done|apply prefix_nil]). }
  destruct (POST_events _ _ _ _ _ _ _ _ Hval Hmk Hpost)
    as (c2 & w2 & evs & Hproc & Htrace2 & Htrace & _ & Hc & _).
  destruct (outcome_elim _ _ _ _ _ (process_trace _ _ _ _ _) Hproc)
    as (evs1 & Htrace1 & _ & _ & Hshape).
  destruct (outcome_elim _ _ _ _ _ (process_needs_text _ _ _ _ _) Hproc)
    as (evs2 & Htrace3 & Hasr & Htr).
  simpl in Htrace1, Htrace3.
  rewrite <- (assoc_L (++)) in Htrace1, Htrace3. simpl in Htrace1, Htrace3.
  assert (Call (OpMkdtemp (workspace_prefix env)) :: evs1
          = Call (OpMkdtemp (workspace_prefix env)) :: evs) as [= ->]
    by (by eapply events_unique).
  assert (Call (OpMkdtemp (workspace_prefix env)) :: evs2
          = Call (OpMkdtemp (workspace_prefix env)) :: evs) as [= ->]
    by (by eapply events_unique).
  set (fin := match rm env ws with
              | Fulfilled _ => []
              | Rejected e => [Raised e]
              end) in *.
  exists (Call (OpMkdtemp (workspace_prefix env)) :: evs ++ Call (OpRm ws) :: fin)%list.
  split. { rewrite Htrace, Htrace2. by rewrite <- (assoc_L (++)). }
  assert (∀ k, (∃ e, c2 = Throw e) → stages_of evs `prefix_of` k →
               c = Normal FAILED ∧
               quiet (Call (OpMkdtemp (workspace_prefix env))
                        :: evs ++ Call (OpRm ws) :: fin) = false ∧
               stages_of (Call (OpMkdtemp (workspace_prefix env))
                            :: evs ++ Call (OpRm ws) :: fin) `prefix_of` k)
    as Hfail.
  { intros k [e ->] Hprefix. destruct Hshape as (pre & -> & Hquiet).
    split_and!.
    - rewrite Hc. by destruct (rm env ws).
    - simpl. rewrite !quiet_app. simpl. by rewrite andb_false_r.
    - change (stages_of ((pre ++ [Raised e]) ++ Call (OpRm ws) :: fin) `prefix_of` k).
      rewrite stages_of_app.
      assert (stages_of (Call (OpRm ws) :: fin) = []) as ->.
      { unfold fin. by destruct (rm env ws). }
      by rewrite app_nil_r. }
  split; intros Hnone.
  - destruct (Hasr Hnone). by apply Hfail.
  - destruct (Htr Hnone). by apply Hfail.
Qed.

Lemma empty_output_fails_witness :
  let env := Sample.with_asr (Fulfilled (AsrObject None (Some "en"))) Sample.calm in
  let run := POST env (Sample.request None) initial_world in
  run.1 = Normal FAILED ∧
  console run.2 = [mkError "Unable to derive transcript from audio."].
Proof.
  intros env run.
  assert (passes_validation (Sample.request None) Sample.clip "es") as Hval.
  { exists (Sample.form None). repeat split; vm_compute; reflexivity. }
  destruct (empty_output_fails env (Sample.request None) initial_world
              run.1 run.2 Sample.clip "es" Hval)
    as (evs & _ & Hasr & _).
  - vm_compute. reflexivity.
  - split; [|vm_compute; reflexivity].
    apply Hasr. intros p r [= <-]. reflexivity.
Defined.

(** ** The source and the target language of the translation *)










(** ** A construction that fails *)

(** A property of the state that the events and the three getters of a
    request preserve holds all along the inner block; and when the block
    returns, each of the three promises was awaited, in a state with the
    property, and was fulfilled. *)
Lemma process_getters (I : World → Prop) env audioFile targetLanguage workspace w :
  (∀ ev w1, I w1 → I (emit ev w1)) →
  (∀ w1 p w2, getASR w1 = (p, w2) → I w1 → I w2) →
  (∀ w1 p w2, getTranslator w1 = (p, w2) → I w1 → I w2) →
  (∀ w1 p w2, getTTS targetLanguage w1 = (p, w2) → I w1 → I w2) →
  I w →
  outcome (process env audioFile targetLanguage workspace)
    (λ c w', I w' ∧
       ∀ r, c = Normal r →
         (∃ w1, I w1 ∧ settles env (getASR w1).1 = Fulfilled tt) ∧
         (∃ w1, I w1 ∧ settles env (getTranslator w1).1 = Fulfilled tt) ∧
         (∃ w1, I w1 ∧ settles env (getTTS targetLanguage w1).1 = Fulfilled tt)) w.
Proof.
  intros Hemit Hasr Htr Htts Hw.
  assert (∀ w1 p w2, getASR w1 = (p, w2) → I w1 →
                     I w2 ∧ ∀ u, settles env p = Fulfilled u →
                       ∃ w1, I w1 ∧ settles env (getASR w1).1 = Fulfilled tt)
    as Hasr'.
  { intros w1 p w2 E H1. split; [by eapply Hasr|].
    intros [] Hu. exists w1. by rewrite E. }
  assert (∀ w1 p w2, getTranslator w1 = (p, w2) → I w1 →
                     I w2 ∧ ∀ u, settles env p = Fulfilled u →
                       ∃ w1, I w1 ∧ settles env (getTranslator w1).1 = Fulfilled tt)
    as Htr'.
  { intros w1 p w2 E H1. split; [by eapply Htr|].
    intros [] Hu. exists w1. by rewrite E. }
  assert (∀ w1 p w2, getTTS targetLanguage w1 = (p, w2) → I w1 →
                     I w2 ∧ ∀ u, settles env p = Fulfilled u →
                       ∃ w1, I w1 ∧
                         settles env (getTTS targetLanguage w1).1 = Fulfilled tt)
    as Htts'.
  { intros w1 p w2 E H1. split; [by eapply Htts|].
    intros [] Hu. exists w1. by rewrite E. }
  unfold process. cbv zeta.
  js_run;
    repeat match goal with
    | E : getASR ?x = (_, _) |- _ =>
        let H := fresh "Hi" in
        assert (I x) as H by (repeat first [assumption | apply Hemit]);
        destruct (Hasr' _ _ _ E H); clear E
    | E : getTranslator ?x = (_, _) |- _ =>
        let H := fresh "Hi" in
        assert (I x) as H by (repeat first [assumption | apply Hemit]);
        destruct (Htr' _ _ _ E H); clear E
    | E : getTTS _ ?x = (_, _) |- _ =>
        let H := fresh "Hi" in
        assert (I x) as H by (repeat first [assumption | apply Hemit]);
        destruct (Htts' _ _ _ E H); clear E
    end;
    (split; [repeat first [assumption | apply Hemit]|]);
    intros r' Hr'; try discriminate Hr'; split_and!; eauto.
Qed.

Lemma kept_fields g p k w w1 :
  asrPipelinePromise w1 = asrPipelinePromise w →
  translationPipelinePromise w1 = translationPipelinePromise w →
  ttsPipelines w1 = ttsPipelines w →
  constructed w1 = constructed w →
  kept g p k w → kept g p k w1.
Proof.
  unfold kept, constructions. intros Ha Ht Hs Hc [Hg Hk].
  rewrite Hc. split; [|done]. destruct g; simpl in *; congruence.
Qed.

Lemma kept_emit g p k ev w : kept g p k w → kept g p k (emit ev w).
Proof. by apply kept_fields. Qed.

Lemma model_of_calls language g g' :
  calls_getter language g → calls_getter language g' →
  model_of g' = model_of g → g' = g.
Proof.
  intros [-> | [-> | ->]] [-> | [-> | ->]]; simpl; try done;
    unfold ASR_PIPELINE, TRANSLATION_PIPELINE, TTS_PIPELINE;
    intros H; discriminate H.
Qed.

(** A getter called by a request leaves alone what another getter of the
    request has cached, and returns what it has cached itself. *)
Lemma kept_getter language g g' p k w1 q w2 :
  calls_getter language g → calls_getter language g' →
  run_getter g' w1 = (q, w2) →
  kept g p k w1 → kept g p k w2 ∧ (g' = g → q = p ∧ w2 = w1).
Proof.
  intros Hg Hg' Hrun [Hc Hk].
  destruct (cached g' w1) as [q'|] eqn:E.
  - rewrite (run_getter_cached _ _ _ E) in Hrun. injection Hrun as <- <-.
    split; [done|]. intros ->. split; [congruence|done].
  - destruct (run_getter_fresh g' w1 E) as (w3 & Hrun' & Hcons & _ & Hother).
    rewrite Hrun' in Hrun. injection Hrun as <- <-.
    assert (g ≠ g') as Hne by congruence.
    split; [|by intros ->]. split.
    + by rewrite (Hother g Hne).
    + unfold constructions in *. rewrite Hcons, filter_app, length_app, Hk.
      rewrite filter_cons_False; [simpl; lia|].
      intros Heq. apply Hne. symmetry. by eapply model_of_calls.
Qed.

(** C10. Once a getter has cached a promise that settles by rejection, the
    getter keeps returning that promise and constructs nothing; and a
    request that passes validation and calls that getter (any request for
    the recogniser and the translator, the requests for its language for a
    synthesizer) is answered with the failure, after which the promise is
    still the cached one and its model has not been constructed again. *)
Theorem rejected_pipeline_stays_cached env request w c w' g p e f l :
  cached g w = Some p →
  settles env p = Rejected e →
  passes_validation request f l →
  calls_getter l g →
  POST env request w = (c, w') →
  run_getter g w = (p, w) ∧
  c = Normal FAILED ∧
  cached g w' = Some p ∧
  constructions (model_of g) w' = constructions (model_of g) w ∧
  run_getter g w' = (p, w').
Proof.
  intros Hcached Hrej Hval Hg Hpost.
  set (k := constructions (model_of g) w).
  assert (kept g p k w) as Hkept by done.
  cut (c = Normal FAILED ∧ kept g p k w').
  { intros (Hc & Hc' & Hk'). split_and!; try done; by apply run_getter_cached. }
  assert (∀ ws, outcome (process env f l ws)
            (λ c2 w2, kept g p k w2 ∧ ∀ r, c2 ≠ Normal r) (created env ws w))
    as Hinner.
  { intros ws. eapply outcome_mono.
    - apply (process_getters (kept g p k)).
      + intros ev w1. apply kept_emit.
      + intros w1 q w2 E H1.
        by apply (kept_getter l g GetASR p k w1 q w2 Hg (or_introl eq_refl) E).
      + intros w1 q w2 E H1.
        by apply (kept_getter l g GetTranslator p k w1 q w2 Hg
                    (or_intror (or_introl eq_refl)) E).
      + intros w1 q w2 E H1.
        by apply (kept_getter l g (GetTTS l) p k w1 q w2 Hg
                    (or_intror (or_intror eq_refl)) E).
      + by apply (kept_fields g p k w).
    - intros c2 w2 [H2 Hok]. split; [done|]. intros r ->.
      destruct (Hok r eq_refl) as ((wa & Ha & Hsa) & (wt & Ht & Hst) & (ws' & Hs & Hss)).
      destruct Hg as [-> | [-> | ->]].
      + destruct (getASR wa) as [q w3] eqn:E.
        destruct (kept_getter l GetASR GetASR p k wa q w3 (or_introl eq_refl)
                    (or_introl eq_refl) E Ha) as [_ Hq].
        destruct (Hq eq_refl) as [-> _]. simpl in Hsa. congruence.
      + destruct (getTranslator wt) as [q w3] eqn:E.
        destruct (kept_getter l GetTranslator GetTranslator p k wt q w3
                    (or_intror (or_introl eq_refl))
                    (or_intror (or_introl eq_refl)) E Ht) as [_ Hq].
        destruct (Hq eq_refl) as [-> _]. simpl in Hst. congruence.
      + destruct (getTTS l ws') as [q w3] eqn:E.
        destruct (kept_getter l (GetTTS l) (GetTTS l) p k ws' q w3
                    (or_intror (or_intror eq_refl))
                    (or_intror (or_intror eq_refl)) E Hs) as [_ Hq].
        destruct (Hq eq_refl) as [-> _]. simpl in Hss. congruence. }
  destruct (POST_cases _ _ _ _ _ Hpost) as (r & -> & Hcase).
  destruct Hcase as
    [e' Hform|fd Hform Haudio|fd f' Hform Haudio Hlang|f' l' e' Hval' Hmk
    |f' l' ws r w2 Hval' Hmk Hproc Hrm|f' l' ws e' w2 Hval' Hmk Hproc Hrm
    |f' l' ws c e' w2 Hval' Hmk Hproc Hrm].
  - destruct Hval as (fd & Hform' & _). congruence.
  - by destruct (passes_validation_audio _ _ Hform Haudio f l).
  - by destruct (passes_validation_language _ _ Hform Hlang f l).
  - split; [done|]. by apply (kept_fields g p k w).
  - assert (f' = f ∧ l' = l) as [-> ->].
    { destruct Hval as (fd & H1 & H2 & H3 & _), Hval' as (fd' & H1' & H2' & H3' & _).
      rewrite H1 in H1'. injection H1' as <-. split; congruence. }
    destruct (outcome_elim _ _ _ _ _ (Hinner ws) Hproc) as [_ Hno].
    by destruct (Hno r).
  - assert (f' = f ∧ l' = l) as [-> ->].
    { destruct Hval as (fd & H1 & H2 & H3 & _), Hval' as (fd' & H1' & H2' & H3' & _).
      rewrite H1 in H1'. injection H1' as <-. split; congruence. }
    destruct (outcome_elim _ _ _ _ _ (Hinner ws) Hproc) as [H2 _].
    split; [done|]. revert H2. by apply kept_fields.
  - assert (f' = f ∧ l' = l) as [-> ->].
    { destruct Hval as (fd & H1 & H2 & H3 & _), Hval' as (fd' & H1' & H2' & H3' & _).
      rewrite H1 in H1'. injection H1' as <-. split; congruence. }
    destruct (outcome_elim _ _ _ _ _ (Hinner ws) Hproc) as [H2 _].
    split; [done|]. revert H2. by apply kept_fields.
Qed.

Lemma rejected_pipeline_stays_cached_witness :
  let env := Sample.with_settles (λ _, Rejected Sample.boom) Sample.calm in
  let w1 := (POST env (Sample.request None) initial_world).2 in
  let run := POST env (Sample.request (Some (EntryString "de"))) w1 in
  cached GetASR w1 = Some 0%nat ∧
  run.1 = Normal FAILED ∧
  cached GetASR run.2 = Some 0%nat ∧
  constructions ASR_PIPELINE run.2 = 1%nat.
Proof.
  intros env w1 run.
  assert (cached GetASR w1 = Some 0%nat) as Hcached by (vm_compute; reflexivity).
  assert (passes_validation (Sample.request (Some (EntryString "de")))
            Sample.clip "de") as Hval.
  { exists (Sample.form (Some (EntryString "de"))).
    repeat split; vm_compute; reflexivity. }
  destruct (rejected_pipeline_stays_cached env
              (Sample.request (Some (EntryString "de"))) w1 run.1 run.2
              GetASR 0%nat Sample.boom Sample.clip "de" Hcached eq_refl Hval
              (or_introl eq_refl))
    as (_ & H1 & H2 & H3 & _).
  - vm_compute. reflexivity.
  - split_and!; [exact Hcached|exact H1|exact H2|].
    change (constructions (model_of GetASR) run.2 = 1%nat).
    rewrite H3. vm_compute. reflexivity.
Defined.

(** ** Whole requests and the singletons *)

Lemma registry_ok_fields w w1 :
  asrPipelinePromise w1 = asrPipelinePromise w →
  translationPipelinePromise w1 = translationPipelinePromise w →
  ttsPipelines w1 = ttsPipelines w →
  constructed w1 = constructed w →
  registry_ok w → registry_ok w1.
Proof.
  unfold registry_ok. intros Ha Ht Hs Hc [Hnd Hreg]. rewrite Hc.
  split; [done|]. intros g Hg. specialize (Hreg g Hg).
  destruct g; simpl in *; by rewrite ?Ha, ?Ht, ?Hs.
Qed.

(** The handler keeps the slots in agreement with the constructions. *)
Lemma POST_registry_ok env request w :
  registry_ok w → registry_ok (POST env request w).2.
Proof.
  intros Hok.
  destruct (POST env request w) as [c w'] eqn:Hpost. simpl.
  destruct (POST_cases _ _ _ _ _ Hpost) as (r & -> & Hcase).
  assert (∀ f l ws c2 w2, passes_validation request f l →
            process env f l ws (created env ws w) = (c2, w2) → registry_ok w2)
    as Hinner.
  { intros f l ws c2 w2 (fd & _ & _ & _ & Hsup) Hproc.
    refine (proj1 (outcome_elim _ _ _ _ _
                     (process_getters registry_ok env f l ws _ _ _ _ _ _) Hproc)).
    - intros ev w1. by apply registry_ok_fields.
    - intros w1 q w3 E H1.
      by destruct (run_getter_spec GetASR w1 w3 q H1 eq_refl E).
    - intros w1 q w3 E H1.
      by destruct (run_getter_spec GetTranslator w1 w3 q H1 eq_refl E).
    - intros w1 q w3 E H1.
      by destruct (run_getter_spec (GetTTS l) w1 w3 q H1 Hsup E).
    - revert Hok. by apply registry_ok_fields. }
  destruct Hcase as
    [e Hform|fd Hform Haudio|fd f Hform Haudio Hlang|f l e Hval Hmk
    |f l ws r w2 Hval Hmk Hproc Hrm|f l ws e w2 Hval Hmk Hproc Hrm
    |f l ws c e w2 Hval Hmk Hproc Hrm];
    try done;
    try (revert Hok; by apply registry_ok_fields);
    (generalize (Hinner _ _ _ _ _ Hval Hproc); by apply registry_ok_fields).
Qed.

(** However many requests are handled, no model is constructed twice. *)
Lemma requests_construct_once (requests : list (Env * NextRequest)) (m : string * string) :
  (constructions m (serve requests initial_world) ≤ 1)%nat.
Proof.
  assert (∀ w, registry_ok w → registry_ok (serve requests w)) as Hserve.
  { induction requests as [|[env request] rest IH]; intros w Hok; [done|].
    simpl. apply IH. by apply POST_registry_ok. }
  destruct (Hserve _ registry_ok_initial) as [Hnd _].
  by apply NoDup_count_le.
Qed.

(** ** The instrumental separator *)

Module SeparatorFacts.
Import Separator.

Section Samples.
Context {sample : Type}.
Variable zero : sample.
Variable sub mean : sample → sample → sample.
Variable level : sample → sample.

Lemma length_low_pass (c : list sample) :
  ∀ previous, length (low_pass mean previous c) = length c.
Proof. induction c as [|s c IH]; intros previous; simpl; by rewrite ?IH. Qed.

Lemma length_suppress (c : list sample) :
  length (suppress zero sub mean c) = length c.
Proof.
  unfold suppress. rewrite length_zip_with, length_low_pass. lia.
Qed.

Lemma length_cancel (a b : list sample) :
  length a = length b → length (cancel sub level a b) = length a.
Proof. intros H. unfold cancel. rewrite length_zip_with. lia. Qed.

End Samples.

(** C9. On a valid buffer, one of one or two channels of equal lengths, the
    separator returns a buffer, which has the samples per channel, the rate,
    the number of channels and the validity of its input, whatever the
    arithmetic of the samples. *)
Theorem separateInstrumental_preserves_shape {sample : Type}
    (zero : sample) (sub mean : sample → sample → sample)
    (level : sample → sample) (x : AudioBuffer sample) :
  valid x = true →
  ∃ y, separateInstrumental zero sub mean level x = inr y ∧
       frames y = frames x ∧
       sampleRate y = sampleRate x ∧
       channelCount y = channelCount x ∧
       length (channels y) = length (channels x) ∧
       valid y = true.
Proof.
  intros Hvalid. unfold separateInstrumental. rewrite Hvalid.
  unfold valid in *.
  apply andb_prop in Hvalid as [Hvalid Hlen].
  apply andb_prop in Hvalid as [Hcount Hchannels].
  apply bool_decide_eq_true in Hcount, Hchannels.
  destruct x as [cs rate n]. simpl in *. unfold frames in *. simpl in *.
  destruct cs as [|l [|r [|c cs]]]; simpl in *.
  - lia.
  - eexists. split; [reflexivity|]. simpl.
    rewrite length_suppress. split_and!; try done.
    rewrite Nat.eqb_refl. simpl.
    apply andb_true_intro. split; [|done].
    apply andb_true_intro. split; apply bool_decide_eq_true; [done|lia].
  - apply andb_prop in Hlen as [_ Hlen].
    apply andb_prop in Hlen as [Hr _]. apply Nat.eqb_eq in Hr.
    eexists. split; [reflexivity|]. simpl.
    rewrite !length_cancel by done. split_and!; try done.
    rewrite Hr, !Nat.eqb_refl. simpl.
    apply andb_true_intro. split; [|done].
    apply andb_true_intro. split; apply bool_decide_eq_true; [done|lia].
  - lia.
Qed.

Lemma separateInstrumental_preserves_shape_witness :
  ∃ y, separateInstrumental 0%Z Z.sub (λ a b, ((a + b) / 2)%Z) (λ s, s) chord = inr y ∧
       frames y = 4%nat ∧ sampleRate y = 44100%Z ∧ channelCount y = 2%nat.
Proof.
  destruct (separateInstrumental_preserves_shape 0%Z Z.sub
              (λ a b, ((a + b) / 2)%Z) (λ s, s) chord)
    as (y & Hy & Hframes & Hrate & Hcount & _).
  - vm_compute. reflexivity.
  - exists y. split_and!; [exact Hy|exact Hframes|exact Hrate|exact Hcount].
Defined.

End SeparatorFacts.

(** * Further properties of the route *)

(** ** The getters as a cache *)

(** X1. After a call of a getter its slot holds the promise it returned, a
    second call returns that promise and changes nothing, and the slot of
    every other getter, the other languages of [getTTS] included, is as it
    was. *)
Theorem getter_caches_its_promise (g : Getter) (w w1 : World) (p : PromiseId) :
  run_getter g w = (p, w1) →
  cached g w1 = Some p ∧
  run_getter g w1 = (p, w1) ∧
  (∀ g', g' ≠ g → cached g' w1 = cached g' w) ∧
  constructed w1 =
    (constructed w ++ match cached g w with
                      | Some _ => []
                      | None => [model_of g]
                      end)%list.
Proof.
  intros Hrun. destruct (cached g w) as [q|] eqn:E.
  - rewrite (run_getter_cached _ _ _ E) in Hrun. injection Hrun as <- <-.
    split_and!; [done|by apply run_getter_cached|done|by rewrite app_nil_r].
  - destruct (run_getter_fresh g w E) as (w2 & Hrun' & Hcons & Hc & Hother).
    rewrite Hrun' in Hrun. injection Hrun as <- <-.
    split_and!; [done|by apply run_getter_cached|done|done].
Qed.

Lemma getter_caches_its_promise_witness :
  let w1 := (getTTS "it" initial_world).2 in
  cached (GetTTS "it") w1 = Some 0%nat ∧
  cached (GetTTS "pt") w1 = None ∧
  constructed w1 = [("text-to-speech", "Xenova/mms-tts-it")].
Proof.
  intros w1.
  destruct (getter_caches_its_promise (GetTTS "it") initial_world w1 0%nat)
    as (H1 & _ & H2 & H3).
  - vm_compute. reflexivity.
  - split_and!; [exact H1| |exact H3].
    rewrite (H2 (GetTTS "pt")); [reflexivity|discriminate].
Defined.

(** ** The two checks of the request *)

(** The inner block returns nothing but the response with the mixed audio. *)
Lemma process_returns_success env f l ws w r w2 :
  process env f l ws w = (Normal r, w2) → ∃ output, r = success output.
Proof.
  intros Hproc.
  by destruct (outcome_elim _ _ _ _ _ (process_trace _ _ _ _ _) Hproc)
    as (evs & _ & _ & _ & _ & _ & Hout).
Qed.

(** X2. The audio is checked before the language: the answer is the missing
    audio message exactly when the [audio] entry is not a file, whatever the
    target language is, and it is the unsupported language message exactly
    when the entry is a file and the target language, given or defaulted, is
    not a supported code. *)
Theorem validation_order env request w fd :
  formData request = Fulfilled fd →
  ((POST env request w).1 = Normal MISSING_AUDIO ↔
   ∀ f, FormData_get "audio" fd ≠ Some (EntryFile f)) ∧
  ((POST env request w).1 = Normal UNSUPPORTED_LANGUAGE ↔
   (∃ f, FormData_get "audio" fd = Some (EntryFile f)) ∧
   ∀ l, nullish (FormData_get "targetLanguage" fd) (EntryString "es") = EntryString l →
        isSupportedLanguage l = false).
Proof.
  intros Hform.
  destruct (POST env request w) as [c w'] eqn:Hpost. simpl.
  destruct (POST_cases _ _ _ _ _ Hpost) as (r & -> & Hcase).
  assert (∀ f l, passes_validation request f l →
                 FormData_get "audio" fd = Some (EntryFile f) ∧
                 ∃ l, nullish (FormData_get "targetLanguage" fd) (EntryString "es")
                      = EntryString l ∧ isSupportedLanguage l = true) as Hval.
  { intros f l (fd' & Hform' & Haudio & Hlang & Hsup).
    rewrite Hform in Hform'. injection Hform' as <-. eauto. }
  assert (∀ f l, passes_validation request f l →
                 ¬ (∀ f, FormData_get "audio" fd ≠ Some (EntryFile f))) as Hno1.
  { intros f l [Haudio _]%Hval Hnone. by apply (Hnone f). }
  assert (∀ f l, passes_validation request f l →
                 ¬ (∀ l, nullish (FormData_get "targetLanguage" fd) (EntryString "es")
                          = EntryString l → isSupportedLanguage l = false)) as Hno2.
  { intros f l [_ (l' & Hlang & Hsup)]%Hval Hnone.
    rewrite (Hnone l' Hlang) in Hsup. discriminate. }
  destruct Hcase as
    [e Hform'|fd' Hform' Haudio|fd' f Hform' Haudio Hlang|f l e Hv Hmk
    |f l ws r w2 Hv Hmk Hproc Hrm|f l ws e w2 Hv Hmk Hproc Hrm
    |f l ws c e w2 Hv Hmk Hproc Hrm].
  - congruence.
  - rewrite Hform in Hform'. injection Hform' as <-. split; split; try done.
    intros [[f Hf] _]. by destruct (Haudio f).
  - rewrite Hform in Hform'. injection Hform' as <-. split; split; try done.
    + intros Hnone. by destruct (Hnone f).
    + intros _. split; [by exists f|done].
  - split; split; try done.
    + intros Hnone. by destruct (Hno1 f l Hv).
    + intros [_ Hnone]. by destruct (Hno2 f l Hv).
  - destruct (process_returns_success _ _ _ _ _ _ _ Hproc) as [out ->].
    split; split; try done.
    + intros Hnone. by destruct (Hno1 f l Hv).
    + intros [_ Hnone]. by destruct (Hno2 f l Hv).
  - split; split; try done.
    + intros Hnone. by destruct (Hno1 f l Hv).
    + intros [_ Hnone]. by destruct (Hno2 f l Hv).
  - split; split; try done.
    + intros Hnone. by destruct (Hno1 f l Hv).
    + intros [_ Hnone]. by destruct (Hno2 f l Hv).
Qed.

Lemma validation_order_witness :
  let fd := [("audio", EntryString "talk.mp3"); ("targetLanguage", EntryString "zz")] in
  (POST Sample.calm (mkRequest (Fulfilled fd)) initial_world).1
  = Normal MISSING_AUDIO.
Proof.
  intros fd.
  apply (proj1 (validation_order Sample.calm (mkRequest (Fulfilled fd))
                  initial_world fd eq_refl)).
  intros f. vm_compute. discriminate.
Defined.

(** ** Failures around the workspace *)

(** X3. When [mkdtemp] is rejected the handler answers with the failure and
    prints the rejection; [rm] is not called, no directory appears and no
    pipeline is constructed. *)
Theorem no_workspace_no_cleanup env request w c w' f l e :
  passes_validation request f l →
  mkdtemp env (workspace_prefix env) = Rejected e →
  POST env request w = (c, w') →
  c = Normal FAILED ∧
  trace w' = (trace w ++ [Call (OpMkdtemp (workspace_prefix env)); Raised e])%list ∧
  console w' = (console w ++ [e])%list ∧
  dirs w' = dirs w ∧
  constructed w' = constructed w.
Proof.
  intros Hval Hmk Hpost.
  rewrite (POST_handled _ _ _ _ _ (handled_no_workspace _ _ _ f l e Hval Hmk))
    in Hpost.
  injection Hpost as <- <-. simpl.
  by rewrite <- (assoc_L (++)).
Qed.

Lemma no_workspace_no_cleanup_witness :
  let env := mkEnv "/tmp" (λ a b, a ++ "/" ++ b) (λ _, ".mp3")
               (λ _, Rejected (mkError "ENOSPC: no space left on device"))
               (writeFile Sample.calm) (readFile Sample.calm) (rm Sample.calm)
               (convertToWav Sample.calm) (createInstrumental Sample.calm)
               (normalizeVoice Sample.calm) (mixTracks Sample.calm)
               (settles Sample.calm) (asr Sample.calm) (translator Sample.calm)
               (tts Sample.calm) (WavEncoder_encode Sample.calm) in
  let run := POST env (Sample.request None) initial_world in
  run.1 = Normal FAILED ∧
  console run.2 = [mkError "ENOSPC: no space left on device"].
Proof.
  intros env run.
  destruct (no_workspace_no_cleanup env (Sample.request None) initial_world
              run.1 run.2 Sample.clip "es"
              (mkError "ENOSPC: no space left on device"))
    as (H1 & _ & H2 & _).
  - exists (Sample.form None). repeat split; vm_compute; reflexivity.
  - reflexivity.
  - vm_compute. reflexivity.
  - split; [exact H1|exact H2].
Defined.

(** X4. Of a failing run one error is printed: the exception of the stage
    when the removal of the directory succeeds, and the rejection of the
    removal when it does not, in which case the exception of the stage,
    though raised, is printed nowhere. *)
Theorem cleanup_failure_masks_stage_error env request w c w' f l ws e1 w2 :
  passes_validation request f l →
  mkdtemp env (workspace_prefix env) = Fulfilled ws →
  process env f l ws (created env ws w) = (Throw e1, w2) →
  POST env request w = (c, w') →
  c = Normal FAILED ∧
  Raised e1 ∈ trace w' ∧
  console w' = (console w ++ [match rm env ws with
                              | Fulfilled _ => e1
                              | Rejected e2 => e2
                              end])%list.
Proof.
  intros Hval Hmk Hproc Hpost.
  destruct (POST_events _ _ _ _ _ _ _ _ Hval Hmk Hpost)
    as (c2 & w3 & evs & Hproc' & _ & Htrace & _ & Hc & Hconsole).
  rewrite Hproc in Hproc'. injection Hproc' as <- <-.
  destruct (outcome_elim _ _ _ _ _ (process_trace _ _ _ _ _) Hproc)
    as (evs' & Htrace' & _ & _ & pre & -> & _).
  split_and!.
  - rewrite Hc. by destruct (rm env ws).
  - rewrite Htrace, Htrace'. rewrite !elem_of_app. left; right; right.
    apply list_elem_of_here.
  - rewrite Hconsole. by destruct (rm env ws).
Qed.

Lemma cleanup_failure_masks_stage_error_witness :
  let env := Sample.with_rm (Rejected Sample.boom)
               (Sample.with_mixTracks (Rejected (mkError "ffmpeg exited with code 1"))
                  Sample.calm) in
  let run := POST env (Sample.request None) initial_world in
  Raised (mkError "ffmpeg exited with code 1") ∈ trace run.2 ∧
  console run.2 = [Sample.boom].
Proof.
  intros env run.
  pose (ws := "/tmp/audio-transform-Ab3xZ9").
  pose (inner := process env Sample.clip "es" ws (created env ws initial_world)).
  destruct (cleanup_failure_masks_stage_error env (Sample.request None)
              initial_world run.1 run.2 Sample.clip "es" ws
              (mkError "ffmpeg exited with code 1") inner.2)
    as (_ & H1 & H2).
  - exists (Sample.form None). repeat split; vm_compute; reflexivity.
  - reflexivity.
  - vm_compute. reflexivity.
  - vm_compute. reflexivity.
  - split; [exact H1|exact H2].
Defined.

(** ** What a run constructs, reads and writes *)

(** A property of the state that advances with each of the three getters,
    and that the events preserve, has advanced as far as the inner block
    went: all the way when the block returns. *)
Lemma process_stages (I0 I1 I2 I3 : World → Prop) env audioFile targetLanguage
    workspace w :
  (∀ ev w1, I0 w1 → I0 (emit ev w1)) →
  (∀ ev w1, I1 w1 → I1 (emit ev w1)) →
  (∀ ev w1, I2 w1 → I2 (emit ev w1)) →
  (∀ ev w1, I3 w1 → I3 (emit ev w1)) →
  (∀ w1 p w2, getASR w1 = (p, w2) → I0 w1 → I1 w2) →
  (∀ w1 p w2, getTranslator w1 = (p, w2) → I1 w1 → I2 w2) →
  (∀ w1 p w2, getTTS targetLanguage w1 = (p, w2) → I2 w1 → I3 w2) →
  I0 w →
  outcome (process env audioFile targetLanguage workspace)
    (λ c w', (I0 w' ∨ I1 w' ∨ I2 w' ∨ I3 w') ∧ ∀ r, c = Normal r → I3 w') w.
Proof.
  intros He0 He1 He2 He3 Hasr Htr Htts Hw.
  unfold process. cbv zeta.
  js_run;
    repeat match goal with
    | E : getASR ?x = (_, _) |- _ =>
        let H := fresh "Hi" in
        assert (I0 x) as H by (repeat first [assumption | apply He0]);
        apply (Hasr _ _ _ E) in H; clear E
    | E : getTranslator ?x = (_, _) |- _ =>
        let H := fresh "Hi" in
        assert (I1 x) as H by (repeat first [assumption | apply He1]);
        apply (Htr _ _ _ E) in H; clear E
    | E : getTTS _ ?x = (_, _) |- _ =>
        let H := fresh "Hi" in
        assert (I2 x) as H by (repeat first [assumption | apply He2]);
        apply (Htts _ _ _ E) in H; clear E
    end;
    (split; [|intros r' Hr'; try discriminate Hr';
              repeat first [assumption | apply He3]]);
    first [ left; by repeat first [assumption | apply He0]
          | right; left; by repeat first [assumption | apply He1]
          | right; right; left; by repeat first [assumption | apply He2]
          | right; right; right; by repeat first [assumption | apply He3] ].
Qed.

Lemma getter_step (g : Getter) (w w1 : World) (p : PromiseId) :
  run_getter g w = (p, w1) →
  constructed w1 =
    (constructed w ++ match cached g w with
                      | Some _ => []
                      | None => [model_of g]
                      end)%list ∧
  ∀ g', g' ≠ g → cached g' w1 = cached g' w.
Proof.
  intros Hrun. destruct (cached g w) as [q|] eqn:E.
  - rewrite (run_getter_cached _ _ _ E) in Hrun. injection Hrun as <- <-.
    split; [by rewrite app_nil_r|done].
  - destruct (run_getter_fresh g w E) as (w2 & Hrun' & Hcons & Hc & Hother).
    rewrite Hrun' in Hrun. by injection Hrun as <- <-.
Qed.

Lemma to_construct_app (gs hs : list Getter) (w : World) :
  to_construct (gs ++ hs) w = (to_construct gs w ++ to_construct hs w)%list.
Proof. unfold to_construct. by rewrite filter_app, map_app. Qed.

Lemma constructed_since_fields w reached w1 w2 :
  asrPipelinePromise w2 = asrPipelinePromise w1 →
  translationPipelinePromise w2 = translationPipelinePromise w1 →
  ttsPipelines w2 = ttsPipelines w1 →
  constructed w2 = constructed w1 →
  constructed_since w reached w1 → constructed_since w reached w2.
Proof.
  unfold constructed_since. intros Ha Ht Hs Hc [Hcons Hrest]. rewrite Hc.
  split; [done|]. intros g Hg. rewrite <- (Hrest g Hg).
  destruct g; simpl; congruence.
Qed.

Lemma constructed_since_getter w reached w1 g p w2 :
  g ∉ reached →
  run_getter g w1 = (p, w2) →
  constructed_since w reached w1 →
  constructed_since w (reached ++ [g]) w2.
Proof.
  intros Hg Hrun [Hcons Hrest].
  destruct (getter_step g w1 w2 p Hrun) as (Hc & Hother).
  split.
  - rewrite Hc, Hcons, to_construct_app, <- (assoc_L (++)). f_equal.
    unfold to_construct. simpl. rewrite !filter_cons, !filter_nil.
    rewrite (Hrest g Hg). by destruct (cached g w).
  - intros g' Hg'. apply not_elem_of_app in Hg' as [Hg1 Hg2].
    rewrite Hother; [by apply Hrest|].
    intros ->. apply Hg2, list_elem_of_here.
Qed.

Lemma constructed_since_base w w0 reached w1 :
  asrPipelinePromise w0 = asrPipelinePromise w →
  translationPipelinePromise w0 = translationPipelinePromise w →
  ttsPipelines w0 = ttsPipelines w →
  constructed w0 = constructed w →
  constructed_since w0 reached w1 → constructed_since w reached w1.
Proof.
  unfold constructed_since, to_construct. intros Ha Ht Hs Hc [Hcons Hrest].
  assert (∀ g, cached g w0 = cached g w) as Hcached.
  { intros g. destruct g; simpl; congruence. }
  split.
  - rewrite Hcons, Hc. do 2 f_equal.
    apply list_filter_iff. intros g. by rewrite Hcached.
  - intros g Hg. by rewrite <- Hcached, Hrest.
Qed.

Lemma constructed_since_refl w : constructed_since w [] w.
Proof. split; [by rewrite app_nil_r|done]. Qed.

Lemma passes_validation_unique request f l f' l' :
  passes_validation request f l → passes_validation request f' l' →
  f' = f ∧ l' = l.
Proof.
  intros (fd & H1 & H2 & H3 & _) (fd' & H1' & H2' & H3' & _).
  rewrite H1 in H1'. injection H1' as <-. split; congruence.
Qed.

(** The getters the inner block went through, and what they constructed. *)
Lemma process_constructions env audioFile targetLanguage workspace w :
  outcome (process env audioFile targetLanguage workspace)
    (λ c w', ∃ reached, reached `prefix_of` GETTERS targetLanguage ∧
       constructed_since w reached w' ∧
       ∀ r, c = Normal r → reached = GETTERS targetLanguage) w.
Proof.
  eapply outcome_mono.
  - apply (process_stages
             (constructed_since w [])
             (constructed_since w [GetASR])
             (constructed_since w [GetASR; GetTranslator])
             (constructed_since w (GETTERS targetLanguage)));
      try (intros ev w1; by apply constructed_since_fields).
    + intros w1 p w2 E H.
      apply (constructed_since_getter w [] w1 GetASR p w2); [|done..].
      apply not_elem_of_nil.
    + intros w1 p w2 E H.
      apply (constructed_since_getter w [GetASR] w1 GetTranslator p w2); [|done..].
      intros Hin%list_elem_of_singleton. discriminate Hin.
    + intros w1 p w2 E H.
      apply (constructed_since_getter w [GetASR; GetTranslator] w1
               (GetTTS targetLanguage) p w2); [|done..].
      intros [Heq|Hin]%elem_of_cons; [done|].
      by apply list_elem_of_singleton in Hin.
    + apply constructed_since_refl.
  - intros c w' [Hstage Hall].
    destruct c as [r|e].
    + exists (GETTERS targetLanguage). split_and!; [done|by eapply Hall|done].
    + destruct Hstage as [H|[H|[H|H]]].
      * exists []. split_and!; [apply prefix_nil|done|done].
      * exists [GetASR]. split_and!; [by eexists|done|done].
      * exists [GetASR; GetTranslator]. split_and!; [by eexists|done|done].
      * exists (GETTERS targetLanguage). split_and!; [done|done|done].
Qed.

(** X5. A request constructs pipelines only through the getters it reaches:
    none when it fails validation; otherwise those of an initial part of the
    recogniser, the translator and the synthesizer of its own target
    language, each only when nothing was cached for it, and of all three
    when it answers with the mixed audio.  The slots of the getters it did
    not reach are unchanged; and when all three have a promise cached, the
    request constructs nothing. *)
Theorem request_constructions env request w c w' :
  POST env request w = (c, w') →
  ∃ reached,
    constructed w' = (constructed w ++ to_construct reached w)%list ∧
    (∀ g, g ∉ reached → cached g w' = cached g w) ∧
    ((∀ f l, ¬ passes_validation request f l) → reached = []) ∧
    (∀ f l, passes_validation request f l →
            reached `prefix_of` GETTERS l ∧
            ((∀ g, g ∈ GETTERS l → is_Some (cached g w)) →
             constructed w' = constructed w)) ∧
    (∀ output, c = Normal (success output) →
               ∃ f l, passes_validation request f l ∧ reached = GETTERS l).
Proof.
  intros Hpost.
  destruct (POST_cases _ _ _ _ _ Hpost) as (r & -> & Hcase).
  assert (∀ l reached, reached `prefix_of` GETTERS l →
            (∀ g, g ∈ GETTERS l → is_Some (cached g w)) →
            to_construct reached w = []) as Hwarm.
  { intros l reached [rest Hrest] Hall. unfold to_construct.
    assert (filter (λ g, cached g w = None) reached = []) as ->; [|done].
    destruct (filter (λ g, cached g w = None) reached) as [|g gs] eqn:E; [done|].
    assert (g ∈ filter (λ g, cached g w = None) reached) as Hin
      by (rewrite E; apply list_elem_of_here).
    apply list_elem_of_filter in Hin as [Hnone Hin].
    destruct (Hall g) as [p Hp]; [|congruence].
    rewrite Hrest. apply elem_of_app. by left. }
  assert (∀ reached f l,
            passes_validation request f l →
            constructed_since w reached w' →
            reached `prefix_of` GETTERS l →
            (∀ output, r = success output → reached = GETTERS l) →
            ∃ reached,
              constructed w' = (constructed w ++ to_construct reached w)%list ∧
              (∀ g, g ∉ reached → cached g w' = cached g w) ∧
              ((∀ f l, ¬ passes_validation request f l) → reached = []) ∧
              (∀ f l, passes_validation request f l →
                      reached `prefix_of` GETTERS l ∧
                      ((∀ g, g ∈ GETTERS l → is_Some (cached g w)) →
                       constructed w' = constructed w)) ∧
              (∀ output, Normal r = Normal (success output) →
                         ∃ f l, passes_validation request f l ∧
                                reached = GETTERS l)) as Hvalid.
  { intros reached f l Hval [Hcons Hrest] Hprefix Hsucc.
    exists reached. split_and!; [done|done| | |].
    - intros Hno. by destruct (Hno f l).
    - intros f' l' Hval'.
      destruct (passes_validation_unique _ _ _ _ _ Hval Hval') as [-> ->].
      split; [done|]. intros Hall.
      by rewrite Hcons, (Hwarm l reached Hprefix Hall), app_nil_r.
    - intros out [= ->]. exists f, l. split; [done|]. by eapply Hsucc. }
  assert (∀ f l ws c2 w2,
            process env f l ws (created env ws w) = (c2, w2) →
            ∃ reached, reached `prefix_of` GETTERS l ∧
              constructed_since w reached w2 ∧
              ∀ r, c2 = Normal r → reached = GETTERS l) as Hinner.
  { intros f l ws c2 w2 Hproc.
    destruct (outcome_elim _ _ _ _ _ (process_constructions _ _ _ _ _) Hproc)
      as (reached & Hprefix & Hsince & Hall).
    exists reached. split_and!; [done| |done].
    revert Hsince. by apply constructed_since_base. }
  destruct Hcase as
    [e Hform|fd Hform Haudio|fd f Hform Haudio Hlang|f l e Hval Hmk
    |f l ws r w2 Hval Hmk Hproc Hrm|f l ws e w2 Hval Hmk Hproc Hrm
    |f l ws c e w2 Hval Hmk Hproc Hrm].
  - exists []. split_and!; try done.
    + by rewrite app_nil_r.
    + intros f l (fd & Hform' & _). congruence.
  - exists []. split_and!; try done.
    + by rewrite app_nil_r.
    + intros f l Hval. by destruct (passes_validation_audio _ _ Hform Haudio f l).
  - exists []. split_and!; try done.
    + by rewrite app_nil_r.
    + intros f' l Hval.
      by destruct (passes_validation_language _ _ Hform Hlang f' l).
  - apply (Hvalid [] f l Hval); [|apply prefix_nil|done].
    generalize (constructed_since_refl w). by apply constructed_since_fields.
  - destruct (Hinner _ _ _ _ _ Hproc) as (reached & Hprefix & Hsince & Hall).
    apply (Hvalid reached f l Hval); [|done|].
    + revert Hsince. by apply constructed_since_fields.
    + intros out _. by eapply Hall.
  - destruct (Hinner _ _ _ _ _ Hproc) as (reached & Hprefix & Hsince & Hall).
    apply (Hvalid reached f l Hval); [|done|done].
    revert Hsince. by apply constructed_since_fields.
  - destruct (Hinner _ _ _ _ _ Hproc) as (reached & Hprefix & Hsince & Hall).
    apply (Hvalid reached f l Hval); [|done|done].
    revert Hsince. by apply constructed_since_fields.
Qed.

Lemma request_constructions_witness :
  let w1 := (POST Sample.calm (Sample.request (Some (EntryString "fr")))
               initial_world).2 in
  let run := POST Sample.calm (Sample.request (Some (EntryString "it"))) w1 in
  ∃ reached,
    reached = GETTERS "it" ∧
    constructed run.2 = (constructed w1 ++ [("text-to-speech", "Xenova/mms-tts-it")])%list.
Proof.
  intros w1 run.
  destruct (request_constructions Sample.calm
              (Sample.request (Some (EntryString "it"))) w1 run.1 run.2)
    as (reached & Hcons & _ & _ & _ & Hsucc).
  - vm_compute. reflexivity.
  - destruct (Hsucc [Byte.xff; Byte.xfb]) as (f & l & Hval & Hreached).
    + vm_compute. reflexivity.
    + destruct Hval as (fd & [= <-] & _ & [= <-] & _).
      exists reached. split; [exact Hreached|].
      rewrite Hcons, Hreached. vm_compute. reflexivity.
Defined.

Lemma files_of_events_app (l r : list Event) :
  files_of_events (l ++ r) = (files_of_events l ++ files_of_events r)%list.
Proof. apply flat_map_app. Qed.

Lemma conversions_app (l r : list Event) :
  conversions (l ++ r) = (conversions l ++ conversions r)%list.
Proof. apply omap_app. Qed.


(** The events of a request that got its scratch directory, around those of
    the inner block, for a property of the latter. *)
Lemma POST_inner env request w c w' f l ws
    (Q : Completion NextResponse → list Event → Prop) :
  passes_validation request f l →
  mkdtemp env (workspace_prefix env) = Fulfilled ws →
  POST env request w = (c, w') →
  outcome (process env f l ws)
    (λ c2 w2, ∃ evs, trace w2 = (trace (created env ws w) ++ evs)%list ∧ Q c2 evs)
    (created env ws w) →
  ∃ c2 evs, Q c2 evs ∧
    trace w' = (trace w ++ Call (OpMkdtemp (workspace_prefix env)) :: evs
                  ++ Call (OpRm ws) ::
                     match rm env ws with
                     | Fulfilled _ => []
                     | Rejected e => [Raised e]
                     end)%list ∧
    c = Normal match rm env ws, c2 with
               | Fulfilled _, Normal r => r
               | _, _ => FAILED
               end.
Proof.
  intros Hval Hmk Hpost Hout.
  destruct (POST_events _ _ _ _ _ _ _ _ Hval Hmk Hpost)
    as (c2 & w2 & evs & Hproc & Htrace2 & Htrace & _ & Hc & _).
  destruct (outcome_elim _ _ _ _ _ Hout Hproc) as (evs' & Htrace' & HQ).
  simpl in Htrace'. rewrite <- (assoc_L (++)) in Htrace'. simpl in Htrace'.
  assert (Call (OpMkdtemp (workspace_prefix env)) :: evs'
          = Call (OpMkdtemp (workspace_prefix env)) :: evs) as [= ->]
    by (by eapply events_unique).
  exists c2, evs. split_and!; [done| |done].
  rewrite Htrace, Htrace2. by rewrite <- (assoc_L (++)).
Qed.

(** The files of the inner block are files of its workspace, and the one
    conversion it asks for is from the written upload to [original.wav]. *)
Lemma process_files env audioFile targetLanguage workspace w :
  outcome (process env audioFile targetLanguage workspace)
    (λ c w', ∃ evs, trace w' = (trace w ++ evs)%list ∧
       Forall (λ p, ∃ n, n ∈ workspace_files env (name audioFile) ∧
                         p = path_join env workspace n)
              (files_of_events evs) ∧
       (conversions evs = [] ∨
        (conversions evs =
           [(path_join env workspace
               ("original" ++ or_else (path_extname env (name audioFile)) ".wav"),
             path_join env workspace "original.wav")] ∧
         Call (OpWriteFile
                 (path_join env workspace
                    ("original" ++ or_else (path_extname env (name audioFile)) ".wav")))
           ∈ evs))) w.
Proof.
  unfold process. cbv zeta.
  js_run; js_trace;
    (split;
     [ cbn [files_of_events flat_map files_of app];
       repeat (apply Forall_cons; split;
               [eexists; split; [|reflexivity]; unfold workspace_files;
                repeat first [apply list_elem_of_here | apply list_elem_of_further]|]);
       apply Forall_nil_2
     | first [ by left
             | right; split; [reflexivity|];
               apply list_elem_of_further, list_elem_of_here ] ]).
Qed.

(** X6. Every file the handler writes, reads or hands to a stage lies in the
    scratch directory of the request, under one of six fixed names; of the
    name of the upload only the extension is used, as the extension of the
    stored original. *)
Theorem files_stay_in_workspace env request w c w' f l ws :
  passes_validation request f l →
  mkdtemp env (workspace_prefix env) = Fulfilled ws →
  POST env request w = (c, w') →
  ∃ evs, trace w' = (trace w ++ evs)%list ∧
    Forall (λ p, ∃ n, n ∈ workspace_files env (name f) ∧ p = path_join env ws n)
           (files_of_events evs).
Proof.
  intros Hval Hmk Hpost.
  destruct (POST_inner env request w c w' f l ws
              (λ _ evs, Forall (λ p, ∃ n, n ∈ workspace_files env (name f) ∧
                                          p = path_join env ws n)
                               (files_of_events evs)) Hval Hmk Hpost)
    as (c2 & evs & Hfiles & Htrace & _).
  { eapply outcome_mono; [apply process_files|].
    intros c2 w2 (evs & Htrace & Hfiles & _). by exists evs. }
  eexists. split; [exact Htrace|].
  change (Forall (λ p, ∃ n, n ∈ workspace_files env (name f) ∧ p = path_join env ws n)
            (files_of_events (evs ++ Call (OpRm ws) ::
               match rm env ws with
               | Fulfilled _ => []
               | Rejected e => [Raised e]
               end))).
  rewrite files_of_events_app.
  assert (files_of_events (Call (OpRm ws) ::
            match rm env ws with
            | Fulfilled _ => []
            | Rejected e => [Raised e]
            end) = []) as -> by (by destruct (rm env ws)).
  by rewrite app_nil_r.
Qed.

Lemma files_stay_in_workspace_witness :
  let run := POST Sample.calm (Sample.request None) initial_world in
  ∃ evs, trace run.2 = (trace initial_world ++ evs)%list ∧
    Forall (λ p, ∃ n, n ∈ workspace_files Sample.calm "talk.mp3" ∧
                      p = path_join Sample.calm "/tmp/audio-transform-Ab3xZ9" n)
           (files_of_events evs).
Proof.
  intros run.
  apply (files_stay_in_workspace Sample.calm (Sample.request None) initial_world
           run.1 run.2 Sample.clip "es" "/tmp/audio-transform-Ab3xZ9").
  - exists (Sample.form None). repeat split; vm_compute; reflexivity.
  - reflexivity.
  - vm_compute. reflexivity.
Defined.

(** X7. For an upload whose name has the extension [.wav] or none, the
    original is stored as [original.wav], so that [convertToWav] is asked
    to convert that file onto itself: its input and its output are the same
    path, the one the upload was written to. *)
Theorem wav_upload_converted_onto_itself env request w c w' f l ws :
  passes_validation request f l →
  mkdtemp env (workspace_prefix env) = Fulfilled ws →
  path_extname env (name f) = "" ∨ path_extname env (name f) = ".wav" →
  POST env request w = (c, w') →
  ∃ evs, trace w' = (trace w ++ evs)%list ∧
    ∀ input output, (input, output) ∈ conversions evs →
      input = output ∧ output = path_join env ws "original.wav" ∧
      Call (OpWriteFile output) ∈ evs.
Proof.
  intros Hval Hmk Hext Hpost.
  assert ("original" ++ or_else (path_extname env (name f)) ".wav" = "original.wav")
    as Hname by (by destruct Hext as [-> | ->]).
  destruct (POST_inner env request w c w' f l ws
              (λ _ evs, conversions evs = [] ∨
                 (conversions evs =
                    [(path_join env ws "original.wav", path_join env ws "original.wav")] ∧
                  Call (OpWriteFile (path_join env ws "original.wav")) ∈ evs))
              Hval Hmk Hpost)
    as (c2 & evs & Hconv & Htrace & _).
  { eapply outcome_mono; [apply process_files|].
    intros c2 w2 (evs & Htrace & _ & Hconv). exists evs. split; [done|].
    by rewrite Hname in Hconv. }
  eexists. split; [exact Htrace|].
  intros input output.
  change ((input, output) ∈ conversions (evs ++ Call (OpRm ws) ::
             match rm env ws with
             | Fulfilled _ => []
             | Rejected e => [Raised e]
             end) →
          input = output ∧ output = path_join env ws "original.wav" ∧
          Call (OpWriteFile output)
            ∈ Call (OpMkdtemp (workspace_prefix env)) :: evs ++ Call (OpRm ws) ::
                match rm env ws with
                | Fulfilled _ => []
                | Rejected e => [Raised e]
                end).
  rewrite conversions_app.
  assert (conversions (Call (OpRm ws) ::
            match rm env ws with
            | Fulfilled _ => []
            | Rejected e => [Raised e]
            end) = []) as -> by (by destruct (rm env ws)).
  rewrite app_nil_r.
  destruct Hconv as [-> | [-> Hin]].
  - by intros ?%elem_of_nil.
  - intros [= -> ->]%list_elem_of_singleton. split_and!; [done..|].
    apply list_elem_of_further, elem_of_app. by left.
Qed.

Lemma wav_upload_converted_onto_itself_witness :
  let env := mkEnv "/tmp" (λ a b, a ++ "/" ++ b) (λ _, ".wav")
               (mkdtemp Sample.calm)
               (writeFile Sample.calm) (readFile Sample.calm) (rm Sample.calm)
               (convertToWav Sample.calm) (createInstrumental Sample.calm)
               (normalizeVoice Sample.calm) (mixTracks Sample.calm)
               (settles Sample.calm) (asr Sample.calm) (translator Sample.calm)
               (tts Sample.calm) (WavEncoder_encode Sample.calm) in
  let run := POST env (Sample.request None) initial_world in
  conversions (trace run.2)
  = [("/tmp/audio-transform-Ab3xZ9/original.wav",
      "/tmp/audio-transform-Ab3xZ9/original.wav")] ∧
  ∃ evs, trace run.2 = (trace initial_world ++ evs)%list ∧
    ∀ input output, (input, output) ∈ conversions evs →
      input = output ∧
      output = path_join env "/tmp/audio-transform-Ab3xZ9" "original.wav" ∧
      Call (OpWriteFile output) ∈ evs.
Proof.
  intros env run. split; [vm_compute; reflexivity|].
  apply (wav_upload_converted_onto_itself env (Sample.request None) initial_world
           run.1 run.2 Sample.clip "es" "/tmp/audio-transform-Ab3xZ9").
  - exists (Sample.form None). repeat split; vm_compute; reflexivity.
  - reflexivity.
  - right. reflexivity.
  - vm_compute. reflexivity.
Defined.




(** * Properties of the page *)

Module PageFacts.
Import Page.


Lemma steady_refl b : steady b b.
Proof. unfold steady. split_and!; try done. by left. Qed.

Lemma steady_trans b1 b2 b3 : steady b1 b2 → steady b2 b3 → steady b1 b3.
Proof.
  unfold steady.
  intros (H1 & H2 & H3 & H4 & H5 & H6 & H7 & H8 & H9 & H10 & H11)
         (G1 & G2 & G3 & G4 & G5 & G6 & G7 & G8 & G9 & G10 & G11).
  split_and!; try congruence.
  - destruct G4 as [G4|G4]; [|by right]. rewrite G4. exact H4.
  - by etrans.
Qed.

Lemma fire_steady id b : steady b (fire id b).
Proof.
  unfold fire. destruct (filter _ (timers b)) as [|t ts]; [apply steady_refl|].
  unfold steady. simpl. split_and!; try done.
  - right. by eexists.
  - apply sublist_filter.
Qed.

Lemma fire_all_steady ids b : steady b (fire_all ids b).
Proof.
  revert b. induction ids as [|id ids IH]; intros b; [apply steady_refl|].
  simpl. eapply steady_trans; [apply fire_steady|apply IH].
Qed.

Lemma await_steady {A : Type} (r : Waited A) b c b' :
  await_ r b = (c, b') → steady b b'.
Proof.
  unfold await_. destruct r.2; intros [= <- <-]; apply fire_all_steady.
Qed.

(** The loop reads the stream to its end and keeps the chunks in order, or
    stops at the rejection of a read. *)
Lemma read_all_spec reader :
  ∀ chunks b c b',
    read_all reader chunks b = (c, b') →
    steady b b' ∧
    match c with
    | Normal all =>
        ends_done reader = true ∧
        concat all = (concat chunks ++ stream_bytes reader)%list
    | Throw e => stream_error reader = Some e
    end.
Proof.
  induction reader as [fired value rest IH|fired|fired e]; intros chunks b c b'.
  - simpl. unfold abind, await_. simpl. intros Hread.
    destruct value as [value|]; apply IH in Hread as [Hsteady Hc].
    + split; [eapply steady_trans; [apply fire_all_steady|done]|].
      destruct c as [all|e]; [|done].
      destruct Hc as [Hdone Hall]. split; [done|].
      rewrite Hall, concat_app. simpl. by rewrite app_nil_r, <- (assoc_L (++)).
    + split; [eapply steady_trans; [apply fire_all_steady|done]|done].
  - simpl. unfold await_. simpl. intros [= <- <-].
    split; [apply fire_all_steady|]. split; [done|]. by rewrite app_nil_r.
  - simpl. unfold await_. simpl. intros [= <- <-].
    split; [apply fire_all_steady|done].
Qed.

(** What the [try] block leaves, when it completes and when it throws. *)
Lemma send_spec net selected lang b c b' :
  send net selected lang b = (c, b') →
  let formData := [("audio", EntryFile selected); ("targetLanguage", EntryString lang)] in
  file (state b') = file (state b) ∧
  language (state b') = language (state b) ∧
  timers b' `sublist_of` timers b ∧
  next_timer b' = next_timer b ∧
  alerts b' = alerts b ∧
  console b' = console b ∧
  defaultPrevented b' = defaultPrevented b ∧
  fetches b' = (fetches b ++ [("/api/process-audio", formData)])%list ∧
  match c with
  | Normal _ =>
      ∃ reader chunks,
        answered net formData reader ∧
        concat chunks = stream_bytes reader ∧
        status (state b') = completed ∧
        progress (state b') = ProgressOne ∧
        downloadUrl (state b')
          = Some (createObjectURL net (mkBlob chunks "audio/mpeg")) ∧
        objectURLs b' =
          (objectURLs b ++ [(createObjectURL net (mkBlob chunks "audio/mpeg"),
                             mkBlob chunks "audio/mpeg")])%list
  | Throw e =>
      SendError net formData e ∧
      downloadUrl (state b') = downloadUrl (state b) ∧
      objectURLs b' = objectURLs b ∧
      (progress (state b') = progress (state b) ∨
       ∃ index, progress (state b') = ProgressTimeline index)
  end.
Proof.
  intros Hsend. cbv zeta.
  unfold send, abind, do_fetch in Hsend.
  set (formData := [("audio", EntryFile selected);
                    ("targetLanguage", EntryString lang)]) in *.
  match type of Hsend with
  | context [await_ (fetch _ _ _) ?x] => remember x as b0 eqn:Hb0 in Hsend
  end.
  assert (∀ b1, steady b0 b1 →
            file (state b1) = file (state b) ∧
            language (state b1) = language (state b) ∧
            timers b1 `sublist_of` timers b ∧
            next_timer b1 = next_timer b ∧
            alerts b1 = alerts b ∧
            console b1 = console b ∧
            defaultPrevented b1 = defaultPrevented b ∧
            fetches b1 = (fetches b ++ [("/api/process-audio", formData)])%list ∧
            downloadUrl (state b1) = downloadUrl (state b) ∧
            objectURLs b1 = objectURLs b ∧
            (progress (state b1) = progress (state b) ∨
             ∃ index, progress (state b1) = ProgressTimeline index)) as Hframe.
  { intros b1 Hsteady. rewrite Hb0 in Hsteady.
    destruct Hsteady as (H1 & H2 & H3 & H4 & H5 & H6 & H7 & H8 & H9 & H10 & H11).
    by split_and!. }
  assert (∀ e b1, steady b0 b1 → SendError net formData e →
            file (state b1) = file (state b) ∧
            language (state b1) = language (state b) ∧
            timers b1 `sublist_of` timers b ∧
            next_timer b1 = next_timer b ∧
            alerts b1 = alerts b ∧
            console b1 = console b ∧
            defaultPrevented b1 = defaultPrevented b ∧
            fetches b1 = (fetches b ++ [("/api/process-audio", formData)])%list ∧
            SendError net formData e ∧
            downloadUrl (state b1) = downloadUrl (state b) ∧
            objectURLs b1 = objectURLs b ∧
            (progress (state b1) = progress (state b) ∨
             ∃ index, progress (state b1) = ProgressTimeline index)) as Hthrow.
  { intros e b1 Hsteady He.
    destruct (Hframe b1 Hsteady)
      as (H1 & H2 & H3 & H4 & H5 & H6 & H7 & H8 & H9 & H10 & H11).
    by split_and!. }
  destruct (fetch net "/api/process-audio" formData) as [fired [response|e]]
    eqn:Hfetch; unfold await_ in Hsend; simpl in Hsend.
  2: { injection Hsend as <- <-.
       apply Hthrow; [apply fire_all_steady|by eapply fetch_rejected]. }
  pose proof (fire_all_steady fired b0) as Hs0.
  destruct (ok response) eqn:Hok; simpl in Hsend.
  2: { destruct (text response) as [fired' [message|e]] eqn:Htext;
         simpl in Hsend; injection Hsend as <- <-.
       - apply Hthrow; [by eapply steady_trans, fire_all_steady|].
         by eapply answer_not_ok.
       - apply Hthrow; [by eapply steady_trans, fire_all_steady|].
         by eapply answer_unreadable. }
  unfold aret in Hsend.
  destruct (body response) as [reader|] eqn:Hbody.
  2: { injection Hsend as <- <-. apply Hthrow; [done|].
       by eapply answer_without_body. }
  destruct (read_all reader [] (fire_all fired b0)) as [[chunks|e] b1] eqn:Hread;
    apply read_all_spec in Hread as [Hs1 Hc].
  2: { injection Hsend as <- <-.
       apply Hthrow; [by eapply steady_trans|]. by eapply stream_failed. }
  destruct Hc as [Hdone Hall]. simpl in Hall.
  unfold do_createObjectURL, aset in Hsend. simpl in Hsend.
  injection Hsend as <- <-. simpl.
  destruct (Hframe b1 (steady_trans _ _ _ Hs0 Hs1))
    as (H1 & H2 & H3 & H4 & H5 & H6 & H7 & H8 & H9 & H10 & H11).
  split_and!; try done.
  exists reader, chunks. split_and!; try done.
  - by exists fired, response.
  - by rewrite H10.
Qed.

(** Clearing a list of timeouts removes the pending timers with those
    handles and touches nothing else. *)
Lemma clear_all_spec ids :
  ∀ b, let b' := fold_left (λ b id, clearTimeout id b) ids b in
       timers b' = filter (λ t, timer_id t ∉ ids) (timers b) ∧
       state b' = state b ∧ next_timer b' = next_timer b ∧
       alerts b' = alerts b ∧ console b' = console b ∧
       fetches b' = fetches b ∧ objectURLs b' = objectURLs b ∧
       defaultPrevented b' = defaultPrevented b.
Proof.
  induction ids as [|id ids IH]; intros b; simpl.
  - split_and!; try done.
    symmetry. induction (timers b) as [|t ts IHt]; [done|].
    rewrite filter_cons_True; [by rewrite IHt|apply not_elem_of_nil].
  - destruct (IH (clearTimeout id b)) as (H1 & H2 & H3 & H4 & H5 & H6 & H7 & H8).
    split_and!; try done.
    rewrite H1. simpl. rewrite list_filter_filter.
    apply list_filter_iff. intros t. rewrite not_elem_of_cons. tauto.
Qed.

(** The synchronous start of a submit: four timers with fresh handles are
    pending after those that were. *)
Lemma begin_submit_spec b :
  ∃ news b1,
    begin_submit b = (map timer_id news, b1) ∧
    map timer_id news = seq (next_timer b) 4 ∧
    map timer_step news = timeline ∧
    map timer_delay news = [5000; 10000; 15000; 20000]%Z ∧
    map timer_index news = [0; 1; 2; 3] ∧
    timers b1 = (timers b ++ news)%list ∧
    next_timer b1 = next_timer b + 4 ∧
    state b1 = mkState (file (state b)) (language (state b)) uploading
                       ProgressTenth None ∧
    alerts b1 = alerts b ∧ console b1 = console b ∧
    fetches b1 = fetches b ∧ objectURLs b1 = objectURLs b ∧
    defaultPrevented b1 = defaultPrevented b.
Proof.
  exists [ mkTimer (next_timer b) 5000 transcribing 0;
           mkTimer (S (next_timer b)) 10000 translating 1;
           mkTimer (S (S (next_timer b))) 15000 synthesizing 2;
           mkTimer (S (S (S (next_timer b)))) 20000 mixing 3 ].
  eexists. unfold begin_submit. simpl.
  split; [reflexivity|]. simpl.
  split_and!; try reflexivity.
  - by rewrite <- !(assoc_L (++)).
  - lia.
Qed.

(** [handleSubmit] for a selected file, step by step. *)
Lemma handleSubmit_selected net b selected :
  file (state b) = Some selected →
  ∃ news b1 c b2,
    begin_submit (preventDefault b) = (map timer_id news, b1) ∧
    map timer_id news = seq (next_timer b) 4 ∧
    timers b1 = (timers b ++ news)%list ∧
    next_timer b1 = next_timer b + 4 ∧
    state b1 = mkState (Some selected) (language (state b)) uploading
                       ProgressTenth None ∧
    alerts b1 = alerts b ∧ console b1 = console b ∧
    fetches b1 = fetches b ∧ objectURLs b1 = objectURLs b ∧
    send net selected (language (state b)) b1 = (c, b2) ∧
    handleSubmit net b =
    fold_left (λ b id, clearTimeout id b) (map timer_id news)
      match c with
      | Normal _ => b2
      | Throw e => setStatus error (console_error e b2)
      end.
Proof.
  intros Hfile.
  destruct (begin_submit_spec (preventDefault b))
    as (news & b1 & Hbegin & Hids & _ & _ & _ & Htimers & Hnext & Hstate & Ha & Hc
        & Hf & Ho & _).
  simpl in *. rewrite Hfile in Hstate.
  destruct (send net selected (language (state b)) b1) as [c b2] eqn:Hsend.
  exists news, b1, c, b2. split_and!; try done.
  unfold handleSubmit. cbv zeta.
  change (state (preventDefault b)) with (state b).
  rewrite Hfile, Hbegin, Hsend. reflexivity.
Qed.


(** The two ways the [try] block ends exclude each other. *)
Lemma SendError_not_answered net formData e reader :
  SendError net formData e → ¬ answered net formData reader.
Proof.
  intros Herr (fired & response & Hfetch & Hok & Hbody & Hdone).
  assert (∀ r, ends_done r = true → stream_error r = None) as Hnone.
  { induction r; simpl; auto; discriminate. }
  destruct Herr as
    [fired' e Hf|fired' response' fired2 message Hf Hok' _
    |fired' response' fired2 e Hf Hok' _|fired' response' Hf _ Hbody'
    |fired' response' reader' e Hf _ Hbody' Herr];
    rewrite Hfetch in Hf; simplify_eq; try congruence.
  match goal with
  | H : stream_error _ = Some _ |- _ =>
      rewrite Hnone in H by assumption; discriminate H
  end.
Qed.

(** The two ways [handleSubmit] ends for a selected file. *)
Lemma handleSubmit_spec net b selected :
  file (state b) = Some selected →
  let formData := [("audio", EntryFile selected);
                   ("targetLanguage", EntryString (language (state b)))] in
  let b' := handleSubmit net b in
  fetches b' = (fetches b ++ [("/api/process-audio", formData)])%list ∧
  file (state b') = Some selected ∧
  language (state b') = language (state b) ∧
  alerts b' = alerts b ∧
  (status (state b') = completed ↔ ∃ reader, answered net formData reader) ∧
  ((∃ reader blob,
      answered net formData reader ∧
      status (state b') = completed ∧
      progress (state b') = ProgressOne ∧
      type blob = "audio/mpeg" ∧
      blob_bytes blob = stream_bytes reader ∧
      downloadUrl (state b') = Some (createObjectURL net blob) ∧
      objectURLs b' = (objectURLs b ++ [(createObjectURL net blob, blob)])%list ∧
      console b' = console b)
   ∨ (∃ e,
        SendError net formData e ∧
        status (state b') = error ∧
        (progress (state b') = ProgressTenth ∨
         ∃ index, progress (state b') = ProgressTimeline index) ∧
        downloadUrl (state b') = None ∧
        objectURLs b' = objectURLs b ∧
        console b' = (console b ++ [e])%list)).
Proof.
  intros Hfile. cbv zeta.
  destruct (handleSubmit_selected net b selected Hfile)
    as (news & b1 & c & b2 & _ & _ & _ & _ & Hstate & Ha & Hc & Hf & Ho
        & Hsend & Heq).
  apply send_spec in Hsend
    as (H1 & H2 & _ & _ & H5 & H6 & _ & H8 & Hends).
  rewrite Hstate in H1, H2. simpl in H1, H2.
  rewrite Heq. clear Heq.
  destruct c as [[]|e];
    match goal with
    | |- context [fold_left ?f ?ids ?x] =>
        destruct (clear_all_spec ids x) as (_ & Hs & _ & Ha' & Hc' & Hf' & Ho' & _);
        simpl in Hs, Ha', Hc', Hf', Ho'; rewrite Hs, Ha', Hc', Hf', Ho'
    end.
  - destruct Hends as (reader & chunks & Hans & Hall & Hst & Hp & Hurl & Hobj).
    split_and!; try congruence.
    + split; [by exists reader|done].
    + left. exists reader, (mkBlob chunks "audio/mpeg").
      split_and!; try done; congruence.
  - destruct Hends as (Herr & Hurl & Hobj & Hprog).
    rewrite Hstate in Hurl, Hprog. simpl in Hurl, Hprog. simpl.
    split_and!; try congruence.
    + split; [discriminate|].
      intros [reader Hans]. by destruct (SendError_not_answered _ _ _ _ Herr Hans).
    + right. exists e. split_and!; try done; congruence.
Qed.



(** X11. The chunk copied from a view that lies within its buffer holds
    the [byteLength] bytes of the view, those from [byteOffset] on, and
    nothing of the rest of the buffer. *)
Theorem chunk_of_view (value : Uint8Array) :
  (byteOffset value + byteLength value ≤ length (buffer value))%nat →
  length (chunk_of value) = byteLength value ∧
  (∀ i, (i < byteLength value)%nat →
        chunk_of value !! i = buffer value !! (byteOffset value + i)) ∧
  ∃ before after,
    buffer value = (before ++ chunk_of value ++ after)%list ∧
    length before = byteOffset value.
Proof.
  intros Hin. unfold chunk_of, slice.
  replace (byteOffset value + byteLength value - byteOffset value)
    with (byteLength value) by lia.
  split_and!.
  - rewrite length_take, length_drop. lia.
  - intros i Hi. by rewrite lookup_take_lt, lookup_drop.
  - exists (take (byteOffset value) (buffer value)),
           (drop (byteLength value) (drop (byteOffset value) (buffer value))).
    split; [by rewrite !take_drop|].
    rewrite length_take. lia.
Qed.

Lemma chunk_of_view_witness :
  chunk_of (mkUint8Array [Byte.x00; Byte.xff; Byte.xfb; Byte.x90; Byte.x00] 1 3)
  = [Byte.xff; Byte.xfb; Byte.x90] ∧
  length (chunk_of (mkUint8Array [Byte.x00; Byte.xff; Byte.xfb; Byte.x90; Byte.x00] 1 3))
  = 3.
Proof.
  split; [reflexivity|].
  apply (chunk_of_view (mkUint8Array [Byte.x00; Byte.xff; Byte.xfb; Byte.x90; Byte.x00] 1 3)).
  simpl. lia.
Defined.

(** While timers fire, the button stays disabled as long as the status is
    [uploading] and none of the timers that fire is pending. *)
Lemma fire_all_disabled (lo hi : nat) (fired : list nat) :
  ∀ b,
    is_Some (file (state b)) →
    Forall (λ t, timer_step t ≠ uploading ∧ (lo ≤ timer_id t < hi)%nat) (timers b) →
    (status (state b) = uploading →
     ∀ id, (lo ≤ id < hi)%nat → id ∈ map timer_id (timers b)) →
    submit_disabled (state (fire_all fired b)) = true ↔
    status (state b) = uploading ∧ Forall (λ id, ¬ (lo ≤ id < hi)%nat) fired.
Proof.
  induction fired as [|id fired IH]; intros b Hfile Hpending Hall.
  - simpl. unfold submit_disabled.
    rewrite (bool_decide_eq_true_2 _ Hfile). simpl.
    rewrite bool_decide_eq_true. split; [by intros ->|by intros [-> _]].
  - simpl. unfold fire.
    destruct (filter (λ t, timer_id t = id) (timers b)) as [|t ts] eqn:E.
    + rewrite (IH b Hfile Hpending Hall). rewrite Forall_cons.
      split; [|by intros (? & _ & ?)].
      intros [Hup Hrest]. split_and!; try done.
      intros Hrange. specialize (Hall Hup id Hrange).
      apply list_elem_of_fmap in Hall as (t & -> & Hin).
      assert (t ∈ filter (λ t', timer_id t' = timer_id t) (timers b)) as Hf
        by (by apply list_elem_of_filter).
      rewrite E in Hf. by apply elem_of_nil in Hf.
    + assert (t ∈ filter (λ t, timer_id t = id) (timers b)) as Hin
        by (rewrite E; apply list_elem_of_here).
      apply list_elem_of_filter in Hin as [<- Hin].
      rewrite Forall_forall in Hpending.
      destruct (Hpending t Hin) as [Hstep Hrange].
      rewrite IH.
      * simpl. split; [by intros [? _]|].
        intros [_ Hno%Forall_cons_1]. by destruct Hno as [Hno _].
      * done.
      * simpl. apply Forall_forall. intros t' Hin'.
        apply list_elem_of_filter in Hin' as [_ Hin']. by apply Hpending.
      * simpl. by intros ?.
Qed.

(** X12. While the answer to the request is awaited, the submit button is
    disabled only until the first of the four timers of the submit fires:
    from then on the status is no longer [uploading] and the button is
    enabled again, the request still being in flight. *)
Theorem submit_enabled_in_flight b selected fired :
  file (state b) = Some selected →
  timers b = [] →
  submit_disabled (state (fire_all fired (begin_submit (preventDefault b)).2)) = true ↔
  Forall (λ id, id ∉ seq (next_timer b) 4) fired.
Proof.
  intros Hfile Hnone.
  destruct (begin_submit_spec (preventDefault b))
    as (news & b1 & Hbegin & Hids & Hsteps & _ & _ & Htimers & _ & Hstate & _).
  rewrite Hbegin. cbn [snd].
  change (state (preventDefault b)) with (state b) in Hstate.
  change (timers (preventDefault b)) with (timers b) in Htimers.
  change (next_timer (preventDefault b)) with (next_timer b) in Hids.
  rewrite Hnone in Htimers. simpl in Htimers.
  rewrite (fire_all_disabled (next_timer b) (next_timer b + 4) fired b1).
  - rewrite Hstate. cbn [status]. split.
    + intros [_ Hall]. eapply Forall_impl; [exact Hall|].
      intros id Hno Hin. apply Hno. apply elem_of_seq in Hin. lia.
    + intros Hall. split; [done|]. eapply Forall_impl; [exact Hall|].
      intros id Hno Hin. apply Hno. apply elem_of_seq. lia.
  - rewrite Hstate. cbn [file]. by rewrite Hfile.
  - rewrite Htimers. apply Forall_forall. intros t Hin. split.
    + assert (timer_step t ∈ timeline) as Hstep
        by (rewrite <- Hsteps; by apply list_elem_of_fmap_2).
      intros Heq. rewrite Heq in Hstep. unfold timeline in Hstep.
      repeat (apply elem_of_cons in Hstep as [Hstep|Hstep]; [discriminate|]).
      by apply elem_of_nil in Hstep.
    + assert (timer_id t ∈ seq (next_timer b) 4) as Hid
        by (rewrite <- Hids; by apply list_elem_of_fmap_2).
      apply elem_of_seq in Hid. lia.
  - intros _ id Hrange. rewrite Htimers, Hids. apply elem_of_seq. lia.
Qed.

Lemma submit_enabled_in_flight_witness :
  let b := select_file (Some (mkFile "talk.mp3" (Fulfilled [Byte.x52])))
             initial_browser in
  submit_disabled (state (fire_all [] (begin_submit (preventDefault b)).2)) = true ∧
  submit_disabled (state (fire_all [0] (begin_submit (preventDefault b)).2)) = false.
Proof.
  intros b. split.
  - apply (submit_enabled_in_flight b (mkFile "talk.mp3" (Fulfilled [Byte.x52])) []);
      [reflexivity|reflexivity|constructor].
  - apply not_true_is_false.
    intros Hdis.
    apply (submit_enabled_in_flight b (mkFile "talk.mp3" (Fulfilled [Byte.x52])) [0])
      in Hdis; [|reflexivity|reflexivity].
    apply Forall_cons_1 in Hdis as [Hno _]. apply Hno. vm_compute.
    apply list_elem_of_here.
Defined.

End PageFacts.

(** * The page and the route together *)

Module PageRoute.

(** A request that passes validation is answered with the mixed audio or
    with the generic failure. *)
Lemma validated_response env request w r w' f l :
  passes_validation request f l →
  POST env request w = (Normal r, w') →
  r = FAILED ∨ ∃ output, r = success output.
Proof.
  intros Hval Hpost.
  destruct (POST_cases _ _ _ _ _ Hpost) as (r' & [= <-] & Hcase).
  destruct Hcase as
    [e Hform|fd Hform Haudio|fd f' Hform Haudio Hlang|f' l' e Hv Hmk
    |f' l' ws r w2 Hv Hmk Hproc Hrm|f' l' ws e w2 Hv Hmk Hproc Hrm
    |f' l' ws c e w2 Hv Hmk Hproc Hrm]; try by left.
  - by destruct (passes_validation_audio _ _ Hform Haudio f l).
  - by destruct (passes_validation_language _ _ Hform Hlang f l).
  - right. by eapply process_returns_success.
Qed.

(** The codes the page offers are the languages the route supports. *)
Lemma page_languages_supported (c : string) :
  c ∈ map Page.code Page.SUPPORTED_LANGUAGES ↔ isSupportedLanguage c = true.
Proof. by rewrite isSupportedLanguage_elem. Qed.

(** The form built by [handleSubmit], as a request to the route. *)
Lemma page_form_passes_validation (selected : File) (language : string) :
  language ∈ map Page.code Page.SUPPORTED_LANGUAGES →
  passes_validation
    (mkRequest (Fulfilled [("audio", EntryFile selected);
                           ("targetLanguage", EntryString language)]))
    selected language.
Proof.
  intros Hin%page_languages_supported. eexists. by split_and!.
Qed.

(** X13. The page and the route agree on the languages: the codes offered
    by the select are exactly those the route supports, and the language of
    the first render is the default of the route.  So the request that
    [handleSubmit] sends for a selected file and an offered language passes
    the validation of the route, which answers it with the mixed audio or
    with the generic failure, never with one of its two 400 messages. *)
Theorem page_request_is_valid net b selected :
  Page.file (Page.state b) = Some selected →
  Page.language (Page.state b) ∈ map Page.code Page.SUPPORTED_LANGUAGES →
  (∀ c, c ∈ map Page.code Page.SUPPORTED_LANGUAGES ↔ isSupportedLanguage c = true) ∧
  Page.language Page.initial_state = "es" ∧
  ∃ formData,
    Page.fetches (Page.handleSubmit net b)
      = (Page.fetches b ++ [("/api/process-audio", formData)])%list ∧
    passes_validation (mkRequest (Fulfilled formData)) selected
      (Page.language (Page.state b)) ∧
    ∀ env w r w',
      POST env (mkRequest (Fulfilled formData)) w = (Normal r, w') →
      r = FAILED ∨ ∃ output, r = success output.
Proof.
  intros Hfile Hlang.
  split; [apply page_languages_supported|]. split; [reflexivity|].
  destruct (PageFacts.handleSubmit_spec net b selected Hfile) as (Hfetch & _).
  eexists. split; [exact Hfetch|].
  pose proof (page_form_passes_validation selected _ Hlang) as Hval.
  split; [exact Hval|].
  intros env w r w'. by eapply validated_response.
Qed.

Lemma page_request_is_valid_witness :
  let b := Page.select_language "de"
             (Page.select_file (Some Sample.clip) Page.initial_browser) in
  let net := Page.mkNet (λ _ _, ([], Rejected (mkError "Failed to fetch")))
                        (λ _, "blob:1") in
  ∃ formData,
    Page.fetches (Page.handleSubmit net b)
      = (Page.fetches b ++ [("/api/process-audio", formData)])%list ∧
    passes_validation (mkRequest (Fulfilled formData)) Sample.clip "de".
Proof.
  intros b net.
  destruct (page_request_is_valid net b Sample.clip) as (_ & _ & fd & H1 & H2 & _).
  - reflexivity.
  - vm_compute. do 3 apply list_elem_of_further. apply list_elem_of_here.
  - exists fd. split; [exact H1|exact H2].
Defined.



End PageRoute.
